(** * Verification model of go-appkit's gRPC interceptors and LRU cache

    Shallow embedding of:
    - [lrucache.LRUCache] (NewWithOpts, Get, Add(WithTTL),
      GetOrAdd(WithTTL), GetOrLoad(WithTTL), Remove, Purge, Resize, Len,
      get, addNew, removeOldest, RunPeriodicCleanup),
    - [interceptor.rateLimitHandler] (newRateLimitHandler and its options,
      handle, handleBacklogProcessing), [RateLimitUnaryInterceptor] and
      [RateLimitStreamInterceptor],
    - [grpcSlidingWindowLimiter.Allow],
    - [RequestIDServerUnaryInterceptor] and the request-ID getters,
    - [LoggingServerUnaryInterceptor] / [logCallCompletion] /
      [splitFullMethodName],
    - the server options and interceptor-chain assembly of [grpcserver.New].

    Go [time.Time] and [time.Duration] values are integers of nanoseconds
    ([Z]); a Go [error] is [option err] ([None] is [nil]). *)

From Stdlib Require Import ZArith List String Ascii Bool Lia Setoid.
Import ListNotations.
Open Scope Z_scope.

(* ------------------------------------------------------------------ *)
(** ** LRU cache (lrucache/cache.go) *)

Module LRU.

Section Cache.

Variables K V : Type.
Variable K_eq_dec : forall x y : K, {x = y} + {x <> y}.

(** [cacheEntry]: [expiresAt = None] is the zero [time.Time]
    ([expiresAt.IsZero()]). *)
Record cacheEntry := mkEntry {
  e_key : K;
  e_value : V;
  e_expiresAt : option Z
}.

(** The metrics a [MetricsCollector] receives: hits and misses are
    counted, [SetAmount] stores the last reported amount and
    [AddEvictions] accumulates.  The disabled collector is the same
    structure with the values ignored. *)
Record metrics := mkMetrics {
  m_hits : Z;
  m_misses : Z;
  m_amount : Z;
  m_evictions : Z
}.

(** [LRUCache]: [lruList] is the list of entries, front (most recently
    used) first.  The Go [cache] map from key to list element is the
    index of this list: a key is in the map iff an entry of the list
    carries it, and [len(c.cache)] is the list's length. *)
Record LRUCache := mkCache {
  maxEntries : Z;
  lruList : list cacheEntry;
  metricsCollector : metrics
}.

Definition lenCache (c : LRUCache) : Z := Z.of_nat (List.length (lruList c)).

Definition IncHits (m : metrics) : metrics :=
  mkMetrics (m_hits m + 1) (m_misses m) (m_amount m) (m_evictions m).
Definition IncMisses (m : metrics) : metrics :=
  mkMetrics (m_hits m) (m_misses m + 1) (m_amount m) (m_evictions m).
Definition SetAmount (n : Z) (m : metrics) : metrics :=
  mkMetrics (m_hits m) (m_misses m) n (m_evictions m).
Definition AddEvictions (n : Z) (m : metrics) : metrics :=
  mkMetrics (m_hits m) (m_misses m) (m_amount m) (m_evictions m + n).

Definition key_eqb (a b : K) : bool :=
  if K_eq_dec a b then true else false.

(** [c.cache[key]]: the entry carrying [key]. *)
Fixpoint lookup (k : K) (l : list cacheEntry) : option cacheEntry :=
  match l with
  | [] => None
  | e :: l' => if key_eqb (e_key e) k then Some e else lookup k l'
  end.

(** [c.lruList.Remove(elem); delete(c.cache, key)]. *)
Definition removeKey (k : K) (l : list cacheEntry) : list cacheEntry :=
  filter (fun e => negb (key_eqb (e_key e) k)) l.

(** [c.lruList.MoveToFront(elem)]. *)
Definition moveToFront (e : cacheEntry) (l : list cacheEntry) : list cacheEntry :=
  e :: removeKey (e_key e) l.

(** [removeOldest]: drop the back of the list (its map entry goes with
    it); [None] when the list is empty. *)
Definition removeOldest (c : LRUCache) : LRUCache * option cacheEntry :=
  match rev (lruList c) with
  | [] => (c, None)
  | e :: rest => (mkCache (maxEntries c) (rev rest) (metricsCollector c), Some e)
  end.

Fixpoint removeOldestN (n : nat) (c : LRUCache) : LRUCache :=
  match n with
  | O => c
  | S n' => removeOldestN n' (fst (removeOldest c))
  end.

(** [Resize]: returns the named result [evicted] and the new cache. *)
Definition Resize (size : Z) (c : LRUCache) : Z * LRUCache :=
  if size <=? 0 then (0, c)
  else
    let c1 := mkCache size (lruList c) (metricsCollector c) in
    let evicted := lenCache c1 - size in
    if evicted <=? 0 then (evicted, c1)
    else
      let c2 := removeOldestN (Z.to_nat evicted) c1 in
      let m := AddEvictions evicted (SetAmount (lenCache c2) (metricsCollector c2)) in
      (evicted, mkCache (maxEntries c2) (lruList c2) m).

(** [entry.expiresAt.Before(now)] guarded by [!IsZero()]. *)
Definition expired (now : Z) (e : cacheEntry) : bool :=
  match e_expiresAt e with
  | None => false
  | Some t => t <? now
  end.

(** [get(key, incHitsAndMisses)] at time [now]. *)
Definition get (now : Z) (k : K) (inc : bool) (c : LRUCache) : option V * LRUCache :=
  match lookup k (lruList c) with
  | None =>
      (None, mkCache (maxEntries c) (lruList c)
               (if inc then IncMisses (metricsCollector c) else metricsCollector c))
  | Some e =>
      if expired now e then
        let l := removeKey k (lruList c) in
        let m := SetAmount (Z.of_nat (List.length l)) (metricsCollector c) in
        (None, mkCache (maxEntries c) l (if inc then IncMisses m else m))
      else
        (Some (e_value e),
         mkCache (maxEntries c) (moveToFront e (lruList c))
           (if inc then IncHits (metricsCollector c) else metricsCollector c))
  end.

(** One tick of [RunPeriodicCleanup] at time [now]. *)
Definition cleanupTick (now : Z) (c : LRUCache) : LRUCache :=
  let l := filter (fun e => negb (expired now e)) (lruList c) in
  mkCache (maxEntries c) l (SetAmount (Z.of_nat (List.length l)) (metricsCollector c)).

End Cache.

Arguments mkEntry {K V}.
Arguments e_key {K V}.
Arguments e_value {K V}.
Arguments e_expiresAt {K V}.
Arguments mkCache {K V}.
Arguments maxEntries {K V}.
Arguments lruList {K V}.
Arguments metricsCollector {K V}.
Arguments lenCache {K V}.
Arguments removeOldest {K V}.
Arguments removeOldestN {K V}.
Arguments Resize {K V}.
Arguments expired {K V}.
Arguments key_eqb {K} K_eq_dec.
Arguments lookup {K V} K_eq_dec.
Arguments removeKey {K V} K_eq_dec.
Arguments moveToFront {K V} K_eq_dec.
Arguments get {K V} K_eq_dec.
Arguments cleanupTick {K V}.

(** *** The public API ([New], [Add], [GetOrAdd], [GetOrLoad], [Remove],
    [Purge], [Len]).  The cache's [defaultTTL] field is passed beside the
    [LRUCache] record; [now] is the value of [time.Now()] during the
    call.  The calls are modelled one at a time (each holds [c.mu]). *)

Section Api.

Context {K V : Type} (K_eq_dec : forall x y : K, {x = y} + {x <> y}).

(** [NewWithOpts]: the cache and its [defaultTTL], or the error.  A nil
    [metricsCollector] is the disabled collector, which has the same
    shape here. *)
Definition NewWithOpts (maxEntries0 : Z) (mc : metrics) (defaultTTL : Z)
  : string + (LRUCache K V * Z) :=
  if maxEntries0 <=? 0 then inl "maxEntries must be greater than 0"%string
  else if defaultTTL <? 0 then inl "defaultTTL must be greater or equal to 0 (no expiration)"%string
  else inr (mkCache maxEntries0 [] mc, defaultTTL).

Definition New (maxEntries0 : Z) (mc : metrics) : string + (LRUCache K V * Z) :=
  NewWithOpts maxEntries0 mc 0.

(** [Len]. *)
Definition Len (c : LRUCache K V) : Z := lenCache c.

(** [Get]. *)
Definition Get (now : Z) (k : K) (c : LRUCache K V) : option V * LRUCache K V :=
  get K_eq_dec now k true c.

(** The [expiresAt] of an entry added at [now] with [ttl]: zero
    ([None]) unless [ttl > 0]. *)
Definition expiresAtOf (now ttl : Z) : option Z :=
  if 0 <? ttl then Some (now + ttl) else None.

(** [addNew]; its callers only reach it for a key that is not cached,
    so [c.cache[key]] is a new map entry. *)
Definition addNew (k : K) (v : V) (expiresAt : option Z) (c : LRUCache K V) : LRUCache K V :=
  let c1 := mkCache (maxEntries c) (mkEntry k v expiresAt :: lruList c) (metricsCollector c) in
  if lenCache c1 <=? maxEntries c1 then
    mkCache (maxEntries c1) (lruList c1) (SetAmount (lenCache c1) (metricsCollector c1))
  else
    match removeOldest c1 with
    | (c2, Some _) => mkCache (maxEntries c2) (lruList c2) (AddEvictions 1 (metricsCollector c2))
    | (c2, None) => c2
    end.

(** [AddWithTTL]. *)
Definition AddWithTTL (now : Z) (k : K) (v : V) (ttl : Z) (c : LRUCache K V) : LRUCache K V :=
  let expiresAt := expiresAtOf now ttl in
  match lookup K_eq_dec k (lruList c) with
  | Some _ =>
      mkCache (maxEntries c) (moveToFront K_eq_dec (mkEntry k v expiresAt) (lruList c))
        (metricsCollector c)
  | None => addNew k v expiresAt c
  end.

(** [Add]. *)
Definition Add (defaultTTL now : Z) (k : K) (v : V) (c : LRUCache K V) : LRUCache K V :=
  AddWithTTL now k v defaultTTL c.

(** [GetOrAddWithTTL]; [valueProvider] is the value the provider
    returns. *)
Definition GetOrAddWithTTL (now : Z) (k : K) (valueProvider : V) (ttl : Z) (c : LRUCache K V)
  : (V * bool) * LRUCache K V :=
  match get K_eq_dec now k true c with
  | (Some v, c1) => ((v, true), c1)
  | (None, c1) => ((valueProvider, false), addNew k valueProvider (expiresAtOf now ttl) c1)
  end.

(** [GetOrAdd]. *)
Definition GetOrAdd (defaultTTL now : Z) (k : K) (valueProvider : V) (c : LRUCache K V)
  : (V * bool) * LRUCache K V :=
  GetOrAddWithTTL now k valueProvider defaultTTL c.

(** [GetOrLoadWithTTL] for a caller that finds no concurrent call for
    the key in flight: the [sfGroup.Do] callback runs in the caller.
    [loadValue k] is [(value, ttl, err)].  The result is
    [(value, exists, err)] ([E] the error type), the zero value of [V] being [None]; the
    deferred hit/miss count runs last. *)
Definition GetOrLoadWithTTL {E : Type} (now defaultTTL : Z) (k : K)
  (loadValue : K -> V * Z * option E)
  (c : LRUCache K V) : (option V * bool * option E) * LRUCache K V :=
  let '(r, c3) :=
    match get K_eq_dec now k false c with
    | (Some v, c1) => ((Some v, true, None), c1)
    | (None, c1) =>
        match get K_eq_dec now k false c1 with
        | (Some v, c2) => ((Some v, true, None), c2)
        | (None, c2) =>
            let '(v, ttl, valErr) := loadValue k in
            match valErr with
            | Some e => ((None, false, Some e), c2)
            | None =>
                let ttl' := if ttl <=? 0 then defaultTTL else ttl in
                ((Some v, false, None), AddWithTTL now k v ttl' c2)
            end
        end
    end in
  let '(_, exists_, _) := r in
  (r, mkCache (maxEntries c3) (lruList c3)
        (if exists_ then IncHits (metricsCollector c3) else IncMisses (metricsCollector c3))).

(** [GetOrLoad]. *)
Definition GetOrLoad {E : Type} (now defaultTTL : Z) (k : K) (loadValue : K -> V * option E)
  (c : LRUCache K V) : (option V * bool * option E) * LRUCache K V :=
  GetOrLoadWithTTL now defaultTTL k
    (fun k' => let '(v, e) := loadValue k' in (v, defaultTTL, e)) c.

(** [Remove]. *)
Definition Remove (k : K) (c : LRUCache K V) : bool * LRUCache K V :=
  match lookup K_eq_dec k (lruList c) with
  | None => (false, c)
  | Some _ =>
      let l := removeKey K_eq_dec k (lruList c) in
      (true, mkCache (maxEntries c) l (SetAmount (Z.of_nat (List.length l)) (metricsCollector c)))
  end.

(** [Purge]. *)
Definition Purge (c : LRUCache K V) : LRUCache K V :=
  mkCache (maxEntries c) [] (SetAmount 0 (metricsCollector c)).

End Api.

End LRU.

(* ------------------------------------------------------------------ *)
(** ** gRPC status codes and Go errors *)

Inductive code :=
  | OK | Canceled | Unknown | InvalidArgument | DeadlineExceeded
  | ResourceExhausted | Internal | Unavailable.

(** A Go [error] value other than [nil]: a gRPC status error, a plain
    error, or an error wrapped by [fmt.Errorf("prefix: %w", inner)]. *)
Inductive err :=
  | ErrStatus (c : code) (msg : string)
  | ErrPlain (msg : string)
  | ErrWrap (prefix : string) (inner : err).

(** [status.Code(err)]: [nil] is [OK]; a status error (also wrapped,
    as grpc-go unwraps with [errors.As]) carries its code; any other
    error is [Unknown]. *)
Fixpoint errCode (e : err) : code :=
  match e with
  | ErrStatus c _ => c
  | ErrPlain _ => Unknown
  | ErrWrap _ inner => errCode inner
  end.

Definition statusCode (e : option err) : code :=
  match e with
  | None => OK
  | Some e' => errCode e'
  end.

Definition code_eqb (a b : code) : bool :=
  match a, b with
  | OK, OK | Canceled, Canceled | Unknown, Unknown
  | InvalidArgument, InvalidArgument | DeadlineExceeded, DeadlineExceeded
  | ResourceExhausted, ResourceExhausted | Internal, Internal
  | Unavailable, Unavailable => true
  | _, _ => false
  end.

(* ------------------------------------------------------------------ *)
(** ** Rate-limit interceptor (grpcserver/interceptor/rate_limit_interceptor.go) *)

Module RateLimit.

Record RateLimitParams := mkParams {
  Key : string;
  RequestBacklogged : bool;
  EstimatedRetryAfter : Z
}.

(** The triple returned by [grpcRateLimiter.Allow]. *)
Record allowResult := mkAllow {
  allowed : bool;
  allowRetryAfter : Z;
  allowErr : option err
}.

(** The call context as the engine reads it: whether a logger is
    attached ([GetLoggerFromContext(ctx) != nil]) and the value of
    [ctx.Err()] once [ctx.Done()] is closed. *)
Record Ctx := mkCtx {
  ctx_logger : bool;
  ctx_cancelErr : err
}.

(** Observable effects of one call: a warning on the context logger,
    an invocation of the wrapped handler, and invocations of the
    [onReject] / [onError] policies. *)
Inductive event :=
  | EvWarn (msg : string) (key : string)
  | EvHandler
  | EvOnReject (p : RateLimitParams)
  | EvOnError (p : RateLimitParams) (e : err).

(** State threaded through a call: how many times the user handler and
    the limiter were invoked, the effect trace, and the occupancy of
    every backlog channel (by channel identifier). *)
Record St := mkSt {
  st_handlerCalls : nat;
  st_allowCalls : nat;
  st_trace : list event;
  st_slots : string -> nat
}.

Definition M (A : Type) : Type := St -> A * St.

Definition ret {A} (a : A) : M A := fun s => (a, s).
Definition bind {A B} (m : M A) (f : A -> M B) : M B :=
  fun s => let (a, s') := m s in f a s'.

Notation "x <- m ;; k" := (bind m (fun x => k))
  (at level 61, m at next level, right associativity).
Notation "m ;;; k" := (bind m (fun _ => k))
  (at level 61, right associativity).

Definition emit (ev : event) : M unit :=
  fun s => (tt, mkSt (st_handlerCalls s) (st_allowCalls s) (st_trace s ++ [ev]) (st_slots s)).

Definition setSlots (ch : string) (n : nat) : M unit :=
  fun s => (tt, mkSt (st_handlerCalls s) (st_allowCalls s) (st_trace s)
                  (fun c => if String.eqb c ch then n else st_slots s c)).

Definition getSlots (ch : string) : M nat := fun s => (st_slots s ch, s).

(** [rateLimitHandler].  [limiter] gives the answer of the i-th call of
    [Allow] for a key (any stateful limiter is such a function of its
    call history).  [getBacklogSlots] is [nil] ([None]) or maps a key
    to the identifier of its backlog channel; [backlogCap] is the
    capacity those channels were made with.  The policies receive
    whether the context carries a logger. *)
Record rateLimitHandler := mkHandler {
  limiter : nat -> string -> allowResult;
  getKey : option (string -> string * bool * option err);
  getBacklogSlots : option (string -> string);
  backlogCap : nat;
  backlogTimeout : Z;
  dryRun : bool;
  onReject : RateLimitParams -> bool -> option err;
  onError : RateLimitParams -> err -> bool -> option err
}.

Definition makeParams (key : string) (backlogged : bool) (estimatedRetryAfter : Z) :=
  mkParams key backlogged estimatedRetryAfter.

Definition Allow (h : rateLimitHandler) (key : string) : M allowResult :=
  fun s => (limiter h (st_allowCalls s) key,
            mkSt (st_handlerCalls s) (S (st_allowCalls s)) (st_trace s) (st_slots s)).

Definition callOnReject (h : rateLimitHandler) (ctx : Ctx) (p : RateLimitParams) : M (option err) :=
  emit (EvOnReject p) ;;; ret (onReject h p (ctx_logger ctx)).

Definition callOnError (h : rateLimitHandler) (ctx : Ctx) (p : RateLimitParams) (e : err)
  : M (option err) :=
  emit (EvOnError p e) ;;; ret (onError h p e (ctx_logger ctx)).

(** The outcome of [handle]: it returned the given error, or it is
    still waiting in the backlog loop when the wake-ups run out. *)
Inductive result :=
  | Blocked
  | Done (e : option err).

(** What wakes the backlog [select]: the retry timer, the backlog
    timeout timer, or [ctx.Done()]. *)
Inductive wake := WRetryTimer | WBacklogTimer | WCtxDone.

(** [freeBacklogSlotIfNeeded]: takes the local [backlogged] and returns
    its new value. *)
Definition freeBacklogSlotIfNeeded (ch : string) (backlogged : bool) : M bool :=
  if backlogged then
    n <- getSlots ch ;;
    match n with
    | O => ret backlogged
    | S n' => setSlots ch n' ;;; ret false
    end
  else ret backlogged.

Definition Done_of (m : M (option err)) : M result := e <- m ;; ret (Done e).

Section Backlog.

Variables (h : rateLimitHandler) (ctx : Ctx) (key : string) (ch : string)
          (handler : M (option err)).

(** The [for { select ... }] loop; returns the outcome together with the
    final value of the local [backlogged]. *)
Fixpoint backlogLoop (wakes : list wake) (backlogged : bool) (retryAfter : Z)
  : M (result * bool) :=
  match wakes with
  | [] => ret (Blocked, backlogged)
  | WBacklogTimer :: _ =>
      b <- freeBacklogSlotIfNeeded ch backlogged ;;
      e <- callOnReject h ctx (makeParams key b retryAfter) ;;
      ret (Done e, b)
  | WCtxDone :: _ =>
      b <- freeBacklogSlotIfNeeded ch backlogged ;;
      e <- callOnError h ctx (makeParams key b retryAfter) (ctx_cancelErr ctx) ;;
      ret (Done e, b)
  | WRetryTimer :: rest =>
      r <- Allow h key ;;
      match allowErr r with
      | Some e =>
          b <- freeBacklogSlotIfNeeded ch backlogged ;;
          e' <- callOnError h ctx (makeParams key b (allowRetryAfter r)) (ErrWrap "rate limit" e) ;;
          ret (Done e', b)
      | None =>
          if allowed r then
            b <- freeBacklogSlotIfNeeded ch backlogged ;;
            e <- handler ;;
            ret (Done e, b)
          else backlogLoop rest backlogged (allowRetryAfter r)
      end
  end.

End Backlog.

(** [handleBacklogProcessing]: the non-blocking send, the loop, and the
    deferred [freeBacklogSlotIfNeeded] that runs once it returns. *)
Definition handleBacklogProcessing (h : rateLimitHandler) (ctx : Ctx) (key : string)
  (retryAfter : Z) (gbs : string -> string) (wakes : list wake) (handler : M (option err))
  : M result :=
  let ch := gbs key in
  n <- getSlots ch ;;
  if Nat.ltb n (backlogCap h) then
    setSlots ch (S n) ;;;
    rb <- backlogLoop h ctx key ch handler wakes true retryAfter ;;
    match fst rb with
    | Blocked => ret Blocked
    | Done e => freeBacklogSlotIfNeeded ch (snd rb) ;;; ret (Done e)
    end
  else
    Done_of (callOnReject h ctx (makeParams key false retryAfter)).

(** [rateLimitHandler.handle] once the key is known. *)
Definition handleKey (h : rateLimitHandler) (ctx : Ctx) (key : string)
  (wakes : list wake) (handler : M (option err)) : M result :=
  r <- Allow h key ;;
  match allowErr r with
  | Some e => Done_of (callOnError h ctx (makeParams key false 0) (ErrWrap "rate limit" e))
  | None =>
      if allowed r then Done_of handler
      else if dryRun h then
        (if ctx_logger ctx
         then emit (EvWarn "rate limit exceeded, continuing in dry run mode" key)
         else ret tt) ;;;
        Done_of handler
      else
        match getBacklogSlots h with
        | None => Done_of (callOnReject h ctx (makeParams key false (allowRetryAfter r)))
        | Some gbs => handleBacklogProcessing h ctx key (allowRetryAfter r) gbs wakes handler
        end
  end.

(** [rateLimitHandler.handle]. *)
Definition handle (h : rateLimitHandler) (ctx : Ctx) (fullMethod : string)
  (wakes : list wake) (handler : M (option err)) : M result :=
  match getKey h with
  | None => handleKey h ctx EmptyString wakes handler
  | Some gk =>
      let '(key, bypass, e) := gk fullMethod in
      match e with
      | Some e' =>
          Done_of (callOnError h ctx (makeParams key false 0) (ErrWrap "get key for rate limit" e'))
      | None => if bypass then Done_of handler else handleKey h ctx key wakes handler
      end
  end.

(** The user's unary handler: its i-th invocation answers [uh i]. *)
Definition invokeUnary (uh : nat -> option nat * option err) : M (option nat * option err) :=
  fun s => (uh (st_handlerCalls s),
            mkSt (S (st_handlerCalls s)) (st_allowCalls s) (st_trace s ++ [EvHandler]) (st_slots s)).

(** The closure returned by [RateLimitUnaryInterceptor]; [None] while
    the call is still waiting in the backlog. *)
Definition RateLimitUnaryInterceptor (h : rateLimitHandler) (ctx : Ctx) (fullMethod : string)
  (wakes : list wake) (uh : nat -> option nat * option err)
  : M (option (option nat * option err)) :=
  r <- handle h ctx fullMethod wakes (x <- invokeUnary uh ;; ret (snd x)) ;;
  match r with
  | Blocked => ret None
  | Done (Some e) => ret (Some (None, Some e))
  | Done None => x <- invokeUnary uh ;; ret (Some x)
  end.

(** The stream closure returned by [RateLimitStreamInterceptor]. *)
Definition RateLimitStreamInterceptor (h : rateLimitHandler) (ctx : Ctx) (fullMethod : string)
  (wakes : list wake) (sh : nat -> option nat * option err) : M result :=
  handle h ctx fullMethod wakes (x <- invokeUnary sh ;; ret (snd x)).

(** *** Construction ([newRateLimitHandler]) *)

Record Rate := mkRate { Count : Z; Duration : Z }.

Definition RateLimitAlgLeakyBucket : Z := 0.
Definition RateLimitAlgSlidingWindow : Z := 1.

Definition DefaultRateLimitMaxKeys : Z := 10000.
Definition DefaultRateLimitBacklogTimeout : Z := 5 * 1000000000.

(** [DefaultRateLimitOnReject] / [DefaultRateLimitOnError]: the errors
    they return (their logging and the [retry-after] header are side
    effects outside this model). *)
Definition DefaultRateLimitOnReject (_ : RateLimitParams) (_ : bool) : option err :=
  Some (ErrStatus ResourceExhausted "Too many requests").
Definition DefaultRateLimitOnError (_ : RateLimitParams) (_ : err) (_ : bool) : option err :=
  Some (ErrStatus Internal "Internal server error").

Record rateLimitOptions := mkOptions {
  o_alg : Z;
  o_maxBurst : Z;
  o_getKey : option (string -> string * bool * option err);
  o_maxKeys : Z;
  o_dryRun : bool;
  o_backlogLimit : Z;
  o_backlogTimeout : Z;
  o_onReject : RateLimitParams -> bool -> option err;
  o_onError : RateLimitParams -> err -> bool -> option err
}.

Definition RateLimitOption := rateLimitOptions -> rateLimitOptions.

Definition defaultRateLimitOptions : rateLimitOptions :=
  mkOptions RateLimitAlgLeakyBucket 0 None 0 false 0 DefaultRateLimitBacklogTimeout
    DefaultRateLimitOnReject DefaultRateLimitOnError.


Definition WithRateLimitBacklogLimit (n : Z) : RateLimitOption := fun o =>
  mkOptions (o_alg o) (o_maxBurst o) (o_getKey o) (o_maxKeys o) (o_dryRun o)
    n (o_backlogTimeout o) (o_onReject o) (o_onError o).

Definition WithRateLimitGetKey (gk : string -> string * bool * option err) : RateLimitOption :=
  fun o => mkOptions (o_alg o) (o_maxBurst o) (Some gk) (o_maxKeys o) (o_dryRun o)
    (o_backlogLimit o) (o_backlogTimeout o) (o_onReject o) (o_onError o).

Definition WithRateLimitAlg (alg : Z) : RateLimitOption := fun o =>
  mkOptions alg (o_maxBurst o) (o_getKey o) (o_maxKeys o) (o_dryRun o)
    (o_backlogLimit o) (o_backlogTimeout o) (o_onReject o) (o_onError o).

Definition WithRateLimitMaxBurst (maxBurst : Z) : RateLimitOption := fun o =>
  mkOptions (o_alg o) maxBurst (o_getKey o) (o_maxKeys o) (o_dryRun o)
    (o_backlogLimit o) (o_backlogTimeout o) (o_onReject o) (o_onError o).

Definition WithRateLimitMaxKeys (maxKeys : Z) : RateLimitOption := fun o =>
  mkOptions (o_alg o) (o_maxBurst o) (o_getKey o) maxKeys (o_dryRun o)
    (o_backlogLimit o) (o_backlogTimeout o) (o_onReject o) (o_onError o).

Definition WithRateLimitBacklogTimeout (backlogTimeout : Z) : RateLimitOption := fun o =>
  mkOptions (o_alg o) (o_maxBurst o) (o_getKey o) (o_maxKeys o) (o_dryRun o)
    (o_backlogLimit o) backlogTimeout (o_onReject o) (o_onError o).

Definition WithRateLimitOnReject (onReject : RateLimitParams -> bool -> option err) : RateLimitOption :=
  fun o => mkOptions (o_alg o) (o_maxBurst o) (o_getKey o) (o_maxKeys o) (o_dryRun o)
    (o_backlogLimit o) (o_backlogTimeout o) onReject (o_onError o).

Definition WithRateLimitOnError (onError : RateLimitParams -> err -> bool -> option err) : RateLimitOption :=
  fun o => mkOptions (o_alg o) (o_maxBurst o) (o_getKey o) (o_maxKeys o) (o_dryRun o)
    (o_backlogLimit o) (o_backlogTimeout o) (o_onReject o) onError.

Definition applyOptions (options : list RateLimitOption) : rateLimitOptions :=
  fold_left (fun o f => f o) options defaultRateLimitOptions.

(** [makeGrpcRateLimitBacklogSlotsProvider]: [None] is the [nil]
    provider; with [maxKeys = 0] every key shares one channel, otherwise
    every key has its own (created by the LRU of channels, which
    [lrucache.New] refuses for a non-positive size).  Evictions from
    that LRU are not modelled. *)
Definition makeGrpcRateLimitBacklogSlotsProvider (backlogLimit maxKeys : Z)
  : string + option (string -> string) :=
  if backlogLimit =? 0 then inr None
  else if maxKeys =? 0 then inr (Some (fun _ => EmptyString))
  else if maxKeys <=? 0 then inl "make rate limit backlog slots provider: new LRU in-memory store for keys"%string
  else inr (Some (fun key => key)).

(** [newRateLimitHandler].  [newLimiter alg maxRate maxBurst maxKeys]
    stands for [newGrpcLeakyBucketLimiter] / [newGrpcSlidingWindowLimiter]
    (third-party stores): an error or the behaviour of the built limiter. *)
Definition newRateLimitHandler
  (newLimiter : Z -> Rate -> Z -> Z -> string + (nat -> string -> allowResult))
  (maxRate : Rate) (options : list RateLimitOption) : string + rateLimitHandler :=
  let opts := applyOptions options in
  if o_backlogLimit opts <? 0 then inl "backlog limit should not be negative"%string
  else
    let backlogLimit := if o_dryRun opts then 0 else o_backlogLimit opts in
    let maxKeys :=
      match o_getKey opts with
      | None => 0
      | Some _ => if o_maxKeys opts =? 0 then DefaultRateLimitMaxKeys else o_maxKeys opts
      end in
    let lim :=
      if (o_alg opts =? RateLimitAlgLeakyBucket) || (o_alg opts =? RateLimitAlgSlidingWindow)
      then newLimiter (o_alg opts) maxRate (o_maxBurst opts) maxKeys
      else inl "unknown rate limit algorithm"%string in
    match lim with
    | inl e => inl e
    | inr l =>
        match makeGrpcRateLimitBacklogSlotsProvider backlogLimit maxKeys with
        | inl e => inl e
        | inr gbs =>
            inr (mkHandler l (o_getKey opts) gbs (Z.to_nat backlogLimit)
                   (o_backlogTimeout opts) (o_dryRun opts) (o_onReject opts) (o_onError opts))
        end
    end.

(** *** Sliding-window limiter ([grpcSlidingWindowLimiter.Allow]) *)

Definition maxInt64 : Z := 9223372036854775807.
Definition minInt64 : Z := -9223372036854775808.

(** [t.Truncate(d)]: round down to a multiple of [d] since the zero
    time; [t] itself when [d <= 0]. *)
Definition Truncate (t d : Z) : Z := if d <=? 0 then t else t - t mod d.

(** [t.Sub(u)]: a [time.Duration], saturated to the int64 range. *)
Definition Sub (t u : Z) : Z := Z.max minInt64 (Z.min maxInt64 (t - u)).

(** [innerAllow] is the answer of the per-key [slidingwindow.Limiter]. *)
Definition slidingWindowAllow (maxRate : Rate) (innerAllow : bool) (now : Z) : allowResult :=
  if innerAllow then mkAllow true 0 None
  else mkAllow false (Sub (Truncate now (Duration maxRate) + Duration maxRate) now) None.

End RateLimit.

(* ------------------------------------------------------------------ *)
(** ** Request-ID interceptor (grpcserver/interceptor/request_id_interceptor.go) *)

Module RequestID.

Definition headerRequestIDKey : string := "x-request-id".
Definition headerRequestInternalIDKey : string := "x-int-request-id".

Inductive ctxKey := CtxRequestID | CtxInternalRequestID.

Definition ctxKey_eqb (a b : ctxKey) : bool :=
  match a, b with
  | CtxRequestID, CtxRequestID | CtxInternalRequestID, CtxInternalRequestID => true
  | _, _ => false
  end.

(** The call context: the incoming metadata ([None] when
    [metadata.FromIncomingContext] fails), as (key, value) pairs in
    order, and the values attached with [context.WithValue], newest
    first. *)
Record Ctx := mkCtx {
  incoming : option (list (string * string));
  values : list (ctxKey * string)
}.

Definition withValue (ctx : Ctx) (k : ctxKey) (v : string) : Ctx :=
  mkCtx (incoming ctx) ((k, v) :: values ctx).

(** [ctx.Value(k)]: the newest binding. *)
Definition lookupValue (ctx : Ctx) (k : ctxKey) : option string :=
  option_map snd (find (fun kv => ctxKey_eqb (fst kv) k) (values ctx)).

(** [getStringFromContext] and the getters built on it: the attached
    string, or [""] when there is none. *)
Definition getStringFromContext (ctx : Ctx) (k : ctxKey) : string :=
  match lookupValue ctx k with
  | Some v => v
  | None => EmptyString
  end.

Definition GetRequestIDFromContext (ctx : Ctx) : string := getStringFromContext ctx CtxRequestID.

Definition GetInternalRequestIDFromContext (ctx : Ctx) : string :=
  getStringFromContext ctx CtxInternalRequestID.

(** [md.Get(key)]: all values of [key], in order. *)
Definition mdGet (md : list (string * string)) (key : string) : list string :=
  map snd (filter (fun kv => String.eqb (fst kv) key) md).

(** The server transport stream behind [grpc.SetHeader]: whether the
    context has one, whether the headers were already sent, and the
    header metadata set so far. *)
Record Stream := mkStream {
  ss_present : bool;
  ss_headerSent : bool;
  ss_header : list (string * string)
}.

(** [grpc.SetHeader(ctx, md)]. *)
Definition SetHeader (md : list (string * string)) (ss : Stream) : err + Stream :=
  if negb (ss_present ss) then inl (ErrStatus Internal "grpc: failed to fetch the stream from the context")
  else if ss_headerSent ss then inl (ErrStatus Internal "transport: SendHeader called multiple times")
  else inr (mkStream true false (ss_header ss ++ md)).

(** State: the number of identifiers minted so far ([xid.New()]) and
    the stream. *)
Record St := mkSt { minted : nat; stream : Stream }.

Section Interceptor.

(** [xidNew n] is the string of the n-th identifier [xid.New()] mints. *)
Variable xidNew : nat -> string.

Definition mint (s : St) : string * St :=
  (xidNew (minted s), mkSt (S (minted s)) (stream s)).

(** The closure of [RequestIDServerUnaryInterceptor]: [inl e] is the
    error it returns, [inr ctx] the context [handler] is invoked with. *)
Definition RequestIDServerUnaryInterceptor (ctx : Ctx) (s : St) : (err + Ctx) * St :=
  let requestID0 :=
    match incoming ctx with
    | Some md =>
        match mdGet md headerRequestIDKey with
        | v :: _ => v
        | [] => EmptyString
        end
    | None => EmptyString
    end in
  let '(requestID, s1) :=
    if String.eqb requestID0 EmptyString then mint s else (requestID0, s) in
  let ctx1 := withValue ctx CtxRequestID requestID in
  match SetHeader [(headerRequestIDKey, requestID)] (stream s1) with
  | inl e => (inl e, s1)
  | inr ss1 =>
      let '(internalRequestID, s2) := mint (mkSt (minted s1) ss1) in
      let ctx2 := withValue ctx1 CtxInternalRequestID internalRequestID in
      match SetHeader [(headerRequestInternalIDKey, internalRequestID)] (stream s2) with
      | inl e => (inl e, s2)
      | inr ss2 => (inr ctx2, mkSt (minted s2) ss2)
      end
  end.

End Interceptor.

End RequestID.

(* ------------------------------------------------------------------ *)
(** ** Logging interceptor (grpcserver/interceptor/logging_interceptor.go) *)

Module Logging.

Record loggingOptions := mkLoggingOptions {
  callStart : bool;
  excludedMethods : list string;
  addCallInfoToLogger : bool;
  slowCallThreshold : Z
}.

Inductive fieldVal :=
  | FStr (v : string)
  | FInt (v : Z)
  | FBool (v : bool)
  | FCode (c : code)
  | FErr (e : err)
  | FObj.

Definition field := (string * fieldVal)%type.

Inductive logMsg :=
  | MsgStarted                  (* "gRPC call started" *)
  | MsgFinished (duration : Z). (* "gRPC call finished in %.3fs" *)

Inductive logEntry := LogInfo (msg : logMsg) (fields : list field).

Definition isFinished (e : logEntry) : bool :=
  match e with
  | LogInfo (MsgFinished _) _ => true
  | _ => false
  end.

Definition isStarted (e : logEntry) : bool :=
  match e with
  | LogInfo MsgStarted _ => true
  | _ => false
  end.

(** [isLoggingDisabled]. *)
Fixpoint isLoggingDisabled (fullMethod : string) (excluded : list string) : bool :=
  match excluded with
  | [] => false
  | m :: rest => if String.eqb fullMethod m then true else isLoggingDisabled fullMethod rest
  end.

(** [logCallCompletion]: the entries it emits.  [lpFields] are the
    fields the handler accumulated in its [LoggingParams]. *)
Definition logCallCompletion (logFields lpFields : list field) (duration : Z)
  (e : option err) (opts : loggingOptions) (fullMethod : string) : list logEntry :=
  let grpcCode := statusCode e in
  let noLog := isLoggingDisabled fullMethod (excludedMethods opts) in
  if negb noLog || negb (code_eqb grpcCode OK) then
    let lpFields' :=
      if slowCallThreshold opts <=? duration
      then lpFields ++ [("slow_request"%string, FBool true); ("time_slots"%string, FObj)]
      else lpFields in
    let logFields' :=
      logFields ++ [("grpc_code"%string, FCode grpcCode); ("duration_ms"%string, FInt (Z.quot duration 1000000))]
      ++ match e with Some e' => [("grpc_error"%string, FErr e')] | None => [] end in
    [LogInfo (MsgFinished duration) (logFields' ++ lpFields')]
  else [].

(** The closure of [LoggingServerUnaryInterceptor].  [logFields] is what
    [buildCommonLogFields] computed for the call, [startTime] the
    resolved call start time, [endTime] the time the handler returned,
    [handlerResult] what the handler returned and [lpFields] the fields
    it added to the logging params.  Returns the emitted entries and the
    call's result. *)
Definition LoggingServerUnaryInterceptor (opts : loggingOptions) (fullMethod : string)
  (logFields : list field) (startTime endTime : Z)
  (handlerResult : option nat * option err) (lpFields : list field)
  : list logEntry * (option nat * option err) :=
  let noLog := isLoggingDisabled fullMethod (excludedMethods opts) in
  let started := if callStart opts && negb noLog then [LogInfo MsgStarted logFields] else [] in
  let '(resp, e) := handlerResult in
  let duration := endTime - startTime in
  (started ++ logCallCompletion logFields lpFields duration e opts fullMethod, (resp, e)).

(** [strings.TrimPrefix]. *)
Definition TrimPrefix (s prefix : string) : string :=
  if String.prefix prefix s
  then substring (String.length prefix) (String.length s - String.length prefix) s
  else s.

(** [strings.Index] for a one-byte separator: the first position of
    [c] in [s], [None] for Go's -1. *)
Fixpoint Index (s : string) (c : ascii) : option nat :=
  match s with
  | EmptyString => None
  | String a rest => if Ascii.eqb a c then Some O else option_map S (Index rest c)
  end.

(** [splitFullMethodName]. *)
Definition splitFullMethodName (fullMethod : string) : string * string :=
  let fullMethod := TrimPrefix fullMethod "/" in
  match Index fullMethod "/"%char with
  | Some i => (substring 0 i fullMethod,
               substring (S i) (String.length fullMethod - S i) fullMethod)
  | None => ("unknown"%string, "unknown"%string)
  end.

End Logging.

(* ------------------------------------------------------------------ *)
(** ** Server shell: interceptor chains of [New] (grpcserver/grpc_server.go) *)

Module Server.

Inductive interceptor :=
  | CallStartTime | RequestIDInterceptor | LoggingInterceptor
  | RecoveryInterceptor | MetricsInterceptor
  | UserInterceptor (id : nat).

Inductive ServerOption :=
  | Creds
  | KeepaliveParams
  | KeepaliveEnforcementPolicy
  | MaxConcurrentStreams (n : Z)
  | MaxRecvMsgSize (n : Z)
  | MaxSendMsgSize (n : Z)
  | ChainUnaryInterceptor (l : list interceptor)
  | ChainStreamInterceptor (l : list interceptor).

(** [cfg.TLS.Enabled] and [cfg.Limits]: [MaxConcurrentStreams] is a
    [uint32], the message sizes are [config.ByteSize] ([uint64]) values,
    all held as their (non-negative) value in [Z]. *)
Record Config := mkConfig {
  tlsEnabled : bool;
  limitMaxConcurrentStreams : Z;
  limitMaxRecvMessageSize : Z;
  limitMaxSendMessageSize : Z
}.

(** The conversion [int(x)] of a [uint64] to Go's 64-bit [int]: the
    value modulo 2^64, read in two's complement. *)
Definition intOfUint64 (x : Z) : Z :=
  let y := x mod 2 ^ 64 in
  if y <? 2 ^ 63 then y else y - 2 ^ 64.

Record serverOptions := mkServerOptions {
  unaryInterceptors : list interceptor;
  streamInterceptors : list interceptor
}.

Definition emptyServerOptions := mkServerOptions [] [].

Definition WithUnaryInterceptors (l : list interceptor) (o : serverOptions) : serverOptions :=
  mkServerOptions (unaryInterceptors o ++ l) (streamInterceptors o).

Definition WithStreamInterceptors (l : list interceptor) (o : serverOptions) : serverOptions :=
  mkServerOptions (unaryInterceptors o) (streamInterceptors o ++ l).

Definition canonicalUnary : list interceptor :=
  [CallStartTime; RequestIDInterceptor; LoggingInterceptor; RecoveryInterceptor; MetricsInterceptor].

Definition canonicalStream : list interceptor :=
  [CallStartTime; RequestIDInterceptor; LoggingInterceptor; RecoveryInterceptor; MetricsInterceptor].

(** [New]: the options handed to [grpc.NewServer], or the error.
    [loadTLS] is the outcome of [tls.LoadX509KeyPair]. *)
Definition New (cfg : Config) (loadTLS : option err)
  (options : list (serverOptions -> serverOptions)) : err + list ServerOption :=
  let opts := fold_left (fun o f => f o) options emptyServerOptions in
  match (if tlsEnabled cfg then loadTLS else None) with
  | Some e => inl (ErrWrap "load TLS certificates" e)
  | None =>
      let serverOpts := if tlsEnabled cfg then [Creds] else [] in
      let serverOpts := serverOpts ++ [KeepaliveParams; KeepaliveEnforcementPolicy] in
      let serverOpts := if 0 <? limitMaxConcurrentStreams cfg
        then serverOpts ++ [MaxConcurrentStreams (limitMaxConcurrentStreams cfg)] else serverOpts in
      let serverOpts := if 0 <? limitMaxRecvMessageSize cfg
        then serverOpts ++ [MaxRecvMsgSize (intOfUint64 (limitMaxRecvMessageSize cfg))] else serverOpts in
      let serverOpts := if 0 <? limitMaxSendMessageSize cfg
        then serverOpts ++ [MaxSendMsgSize (intOfUint64 (limitMaxSendMessageSize cfg))] else serverOpts in
      let unary := canonicalUnary ++ unaryInterceptors opts in
      let serverOpts := if 0 <? Z.of_nat (List.length unary)
        then serverOpts ++ [ChainUnaryInterceptor unary] else serverOpts in
      let stream := canonicalStream ++ streamInterceptors opts in
      let serverOpts := if 0 <? Z.of_nat (List.length (streamInterceptors opts))
        then serverOpts ++ [ChainStreamInterceptor stream] else serverOpts in
      inr serverOpts
  end.

End Server.

(* ================================================================== *)
(** * Properties *)

(* ------------------------------------------------------------------ *)
(** ** LRU cache *)

Module LRUProofs.
Import LRU.

Section Props.

Variables K V : Type.
Variable K_eq_dec : forall x y : K, {x = y} + {x <> y}.

Lemma removeOldest_cons (c : LRUCache K V) e rest :
  rev (lruList c) = e :: rest ->
  fst (removeOldest c) = mkCache (maxEntries c) (rev rest) (metricsCollector c)
  /\ lruList c = rev rest ++ [e].
Proof.
  intro H. unfold removeOldest. rewrite H. split; [reflexivity|].
  rewrite <- (rev_involutive (lruList c)), H. reflexivity.
Qed.

(** Removing the oldest entry [k] times keeps the [length - k] most
    recently used ones. *)
Lemma removeOldestN_firstn (k : nat) :
  forall (m : Z) (l : list (cacheEntry K V)) mc,
    removeOldestN k (mkCache m l mc) = mkCache m (firstn (List.length l - k) l) mc.
Proof.
  induction k as [|k IH]; intros m l mc; simpl.
  - rewrite Nat.sub_0_r, firstn_all. reflexivity.
  - destruct (rev l) as [|e rest] eqn:Hr.
    + assert (l = []) as -> by (apply (f_equal (@rev _)) in Hr; rewrite rev_involutive in Hr; exact Hr).
      simpl. rewrite IH. reflexivity.
    + destruct (removeOldest_cons (mkCache m l mc) e rest Hr) as [H1 H2].
      simpl in H1, H2. rewrite H1, IH, H2.
      rewrite length_app; simpl.
      rewrite firstn_app, length_rev.
      replace (List.length rest + 1 - S k - List.length rest)%nat with 0%nat by lia.
      replace (List.length rest + 1 - S k)%nat with (List.length rest - k)%nat by lia.
      simpl. rewrite app_nil_r. reflexivity.
Qed.

Lemma lookup_removeKey (k : K) (l : list (cacheEntry K V)) :
  lookup K_eq_dec k (removeKey K_eq_dec k l) = None.
Proof.
  induction l as [|e l IH]; simpl; [reflexivity|].
  unfold key_eqb at 1. destruct (K_eq_dec (e_key e) k) as [E|N]; simpl.
  - exact IH.
  - unfold key_eqb; destruct (K_eq_dec (e_key e) k); [contradiction|exact IH].
Qed.

Lemma in_cleanupTick (now : Z) (c : LRUCache K V) (e : cacheEntry K V) :
  In e (lruList (cleanupTick now c)) <-> In e (lruList c) /\ expired now e = false.
Proof.
  unfold cleanupTick; simpl. rewrite filter_In, negb_true_iff. reflexivity.
Qed.

(** C10: [Resize] with a size [<= 0] returns 0 evictions and leaves the
    whole cache (entries, recency order, [maxEntries], metrics) as it
    was. *)
Theorem Resize_nonpositive_unchanged (c : LRUCache K V) (size : Z) :
  size <= 0 -> Resize size c = (0, c).
Proof.
  intro H. unfold Resize. replace (size <=? 0) with true by (symmetry; apply Z.leb_le; exact H).
  reflexivity.
Qed.

(** C3 (amended): for [0 < n], [Resize n] sets the bound to [n].  When
    [n] is below the current size it evicts the [size - n] least
    recently used entries (the [n] most recent are kept in order), adds
    [size - n] to the eviction counter and returns it; otherwise it
    evicts nothing and the entries and metrics stay as they were (the
    returned value is [size - n <= 0]). *)
Theorem Resize_evicts_delta (c : LRUCache K V) (n : Z) :
  0 < n ->
  (n < lenCache c ->
     Resize n c = (lenCache c - n,
       mkCache n (firstn (Z.to_nat n) (lruList c))
         (AddEvictions (lenCache c - n) (SetAmount n (metricsCollector c)))))
  /\ (lenCache c <= n ->
     Resize n c = (lenCache c - n, mkCache n (lruList c) (metricsCollector c))).
Proof.
  intro Hn. unfold Resize.
  replace (n <=? 0) with false by (symmetry; apply Z.leb_gt; lia).
  unfold lenCache in *; simpl. split; intro Hc.
  - replace (Z.of_nat (List.length (lruList c)) - n <=? 0) with false
      by (symmetry; apply Z.leb_gt; lia).
    rewrite removeOldestN_firstn. simpl.
    assert (Hk : (List.length (lruList c) - Z.to_nat (Z.of_nat (List.length (lruList c)) - n))%nat
                 = Z.to_nat n) by lia.
    rewrite Hk, length_firstn.
    replace (Z.of_nat (Nat.min (Z.to_nat n) (List.length (lruList c)))) with n by lia.
    reflexivity.
  - replace (Z.of_nat (List.length (lruList c)) - n <=? 0) with true
      by (symmetry; apply Z.leb_le; lia).
    reflexivity.
Qed.

(** C6 (amended): a [get] at time [now] reports the value iff the entry
    exists and its expiry is unset or not earlier than [now]
    ([expiresAt >= now]); an entry whose expiry is before [now] is
    removed from the cache by the access; a periodic-cleanup tick at
    [now] removes exactly the entries whose expiry is before [now]. *)
Theorem get_presence_expiry (now : Z) (k : K) (inc : bool) (c : LRUCache K V) :
  fst (get K_eq_dec now k inc c) =
    match lookup K_eq_dec k (lruList c) with
    | None => None
    | Some e =>
        match e_expiresAt e with
        | None => Some (e_value e)
        | Some t => if now <=? t then Some (e_value e) else None
        end
    end
  /\ (forall e, lookup K_eq_dec k (lruList c) = Some e -> expired now e = true ->
        lookup K_eq_dec k (lruList (snd (get K_eq_dec now k inc c))) = None)
  /\ (forall e, In e (lruList (cleanupTick now c)) <-> In e (lruList c) /\ expired now e = false).
Proof.
  split; [|split].
  - unfold get. destruct (lookup K_eq_dec k (lruList c)) as [e|]; [|reflexivity].
    unfold expired. destruct (e_expiresAt e) as [t|]; [|reflexivity].
    destruct (Z.ltb_spec t now), (Z.leb_spec now t); try lia; reflexivity.
  - intros e Hl He. unfold get. rewrite Hl, He. simpl. apply lookup_removeKey.
  - intro e. apply in_cleanupTick.
Qed.

End Props.

(** Concrete caches with [nat] keys and values. *)
Definition ent (k v : nat) (exp : option Z) : cacheEntry nat nat := mkEntry k v exp.
Definition metrics0 : metrics := mkMetrics 0 0 0 0.

(** Three entries, key 3 most recently used, key 1 least. *)
Definition cache3 : LRUCache nat nat :=
  mkCache 10 [ent 3 30 None; ent 2 20 None; ent 1 10 None] metrics0.

(** One entry that expires at time 5. *)
Definition cacheExp5 : LRUCache nat nat := mkCache 10 [ent 1 42 (Some 5)] metrics0.

Lemma Resize_nonpositive_unchanged_witness :
  0 <= 0 /\ Resize 0 cache3 = (0, cache3).
Proof. split; [lia | apply Resize_nonpositive_unchanged; lia]. Defined.

Lemma Resize_evicts_delta_witness :
  0 < 1 /\ 1 < lenCache cache3 /\
  Resize 1 cache3 = (lenCache cache3 - 1,
     mkCache 1 (firstn (Z.to_nat 1) (lruList cache3))
       (AddEvictions (lenCache cache3 - 1) (SetAmount 1 (metricsCollector cache3)))).
Proof.
  split; [lia|]. split; [vm_compute; reflexivity|].
  apply (proj1 (Resize_evicts_delta _ _ cache3 1 ltac:(lia))). vm_compute. reflexivity.
Defined.

(** At time 6 the entry of key 1 (expiry 5) is expired; [get] reports
    it absent and drops it from the cache. *)
Lemma get_presence_expiry_witness :
  lookup Nat.eq_dec 1%nat (lruList cacheExp5) = Some (ent 1 42 (Some 5))
  /\ expired 6 (ent 1 42 (Some 5)) = true
  /\ fst (get Nat.eq_dec 6 1%nat true cacheExp5) = None
  /\ lookup Nat.eq_dec 1%nat (lruList (snd (get Nat.eq_dec 6 1%nat true cacheExp5))) = None.
Proof.
  pose proof (get_presence_expiry _ _ Nat.eq_dec 6 1%nat true cacheExp5) as [T1 [T2 _]].
  split; [reflexivity|]. split; [reflexivity|]. split.
  - rewrite T1. reflexivity.
  - exact (T2 (ent 1 42 (Some 5)) eq_refl eq_refl).
Defined.

(** C3 refuted: on a cache of 3 entries, [Resize 1] evicts 2 entries
    (the delta), not 1 (= n), and keeps only the most recent one. *)
Lemma Resize_evicts_delta_not_n :
  fst (Resize 1 cache3) = 2
  /\ lruList (snd (Resize 1 cache3)) = [ent 3 30 None]
  /\ (List.length (lruList cache3) - List.length (lruList (snd (Resize 1 cache3))) <> 1)%nat.
Proof. vm_compute. split; [reflexivity|]. split; [reflexivity|]. discriminate. Qed.

(** C6 refuted: an entry whose expiry equals the access time is still
    reported present, although its expiry is not strictly later. *)
Lemma get_present_at_expiry_instant :
  ~ ((exists v, fst (get Nat.eq_dec 5 1%nat true cacheExp5) = Some v) <->
     (exists e, lookup Nat.eq_dec 1%nat (lruList cacheExp5) = Some e /\
        (e_expiresAt e = None \/ exists t, e_expiresAt e = Some t /\ 5 < t))).
Proof.
  intros [H _].
  assert (Hp : exists v, fst (get Nat.eq_dec 5 1%nat true cacheExp5) = Some v)
    by (exists 42%nat; vm_compute; reflexivity).
  destruct (H Hp) as [e [He [Hn | [t [Ht Hlt]]]]];
    vm_compute in He; injection He as <-.
  - discriminate.
  - simpl in Ht. injection Ht as <-. lia.
Qed.

End LRUProofs.

(* ------------------------------------------------------------------ *)
(** ** Rate-limit engine *)

Module RateLimitProofs.
Import RateLimit.

(** C9: a sliding-window rejection at time [now] (nanoseconds since the
    zero time) reports [retryAfter = duration - (now mod duration)], the
    time left until the next window boundary. *)
Theorem slidingWindow_retryAfter (maxRate : Rate) (now : Z) :
  0 < Duration maxRate <= maxInt64 ->
  slidingWindowAllow maxRate false now
  = mkAllow false (Duration maxRate - now mod Duration maxRate) None.
Proof.
  intros [Hpos Hmax]. unfold slidingWindowAllow, Truncate, Sub.
  replace (Duration maxRate <=? 0) with false by (symmetry; apply Z.leb_gt; lia).
  pose proof (Z.mod_pos_bound now (Duration maxRate) Hpos).
  unfold minInt64, maxInt64 in *. f_equal. lia.
Qed.

Lemma slidingWindow_retryAfter_witness :
  0 < Duration (mkRate 2 1000000000) <= maxInt64 /\
  slidingWindowAllow (mkRate 2 1000000000) false 2500000000
  = mkAllow false (Duration (mkRate 2 1000000000) - 2500000000 mod Duration (mkRate 2 1000000000)) None.
Proof.
  split; [unfold maxInt64; simpl; lia|].
  apply slidingWindow_retryAfter. unfold maxInt64; simpl; lia.
Defined.

(** C1 (code defect): when the engine admits a unary call (the key is
    resolved without error and not bypassed, [Allow] admits) and the
    handler succeeds, [RateLimitUnaryInterceptor] invokes the handler a
    second time and returns the second invocation's response: the
    handler runs twice, not once. *)
Theorem RateLimitUnary_admitted_runs_handler_twice
  (h : rateLimitHandler) (ctx : Ctx) (fullMethod key : string) (wakes : list wake)
  (uh : nat -> option nat * option err) (s : St) (ra : Z) :
  match getKey h with
  | None => key = EmptyString
  | Some gk => gk fullMethod = (key, false, None)
  end ->
  limiter h (st_allowCalls s) key = mkAllow true ra None ->
  snd (uh (st_handlerCalls s)) = None ->
  RateLimitUnaryInterceptor h ctx fullMethod wakes uh s
  = (Some (uh (S (st_handlerCalls s))),
     mkSt (S (S (st_handlerCalls s))) (S (st_allowCalls s))
       (st_trace s ++ [EvHandler] ++ [EvHandler]) (st_slots s)).
Proof.
  intros Hk Ha Hu.
  unfold RateLimitUnaryInterceptor, handle.
  destruct (getKey h) as [gk|]; simpl in Hk.
  - rewrite Hk. simpl.
    unfold handleKey, bind, Allow. rewrite Ha. simpl.
    unfold Done_of, bind, invokeUnary, ret. simpl. rewrite Hu.
    simpl. rewrite <- app_assoc. reflexivity.
  - subst key. unfold handleKey, bind, Allow. rewrite Ha. simpl.
    unfold Done_of, bind, invokeUnary, ret. simpl. rewrite Hu.
    simpl. rewrite <- app_assoc. reflexivity.
Qed.

(** A limiter that admits every call, and one that rejects every call
    with a 1 s retry hint. *)
Definition admitAll : nat -> string -> allowResult := fun _ _ => mkAllow true 0 None.
Definition rejectAll : nat -> string -> allowResult := fun _ _ => mkAllow false 1000000000 None.

Definition handlerAdmitAll : rateLimitHandler :=
  mkHandler admitAll None None 0 DefaultRateLimitBacklogTimeout false
    DefaultRateLimitOnReject DefaultRateLimitOnError.

(** The n-th invocation of this handler answers [n] with no error. *)
Definition countingHandler : nat -> option nat * option err := fun n => (Some n, None).

Definition st0 : St := mkSt 0 0 [] (fun _ => 0%nat).
Definition ctxWithLogger : Ctx := mkCtx true (ErrStatus Canceled "context canceled").

Lemma RateLimitUnary_admitted_runs_handler_twice_witness :
  RateLimitUnaryInterceptor handlerAdmitAll ctxWithLogger "/svc/Method" [] countingHandler st0
  = (Some (countingHandler 1%nat),
     mkSt 2 1 ([] ++ [EvHandler] ++ [EvHandler]) (st_slots st0)).
Proof.
  apply (RateLimitUnary_admitted_runs_handler_twice handlerAdmitAll ctxWithLogger
           "/svc/Method" EmptyString [] countingHandler st0 0); reflexivity.
Defined.





(** The limiter construction used in the concrete runs: it always
    succeeds and yields [rejectAll]. *)
Definition newRejectAll : Z -> Rate -> Z -> Z -> string + (nat -> string -> allowResult) :=
  fun _ _ _ _ => inr rejectAll.

Definition oneHandlerCall : M (option err) := x <- invokeUnary countingHandler ;; ret (snd x).



(** *** Backlog protocol *)

Definition rejects (r : allowResult) : Prop := allowErr r = None /\ allowed r = false.

(** The state with the occupancy of channel [ch] set to [v]. *)
Definition withSlots (s : St) (ch : string) (v : nat) : St :=
  mkSt (st_handlerCalls s) (st_allowCalls s) (st_trace s)
    (fun c => if String.eqb c ch then v else st_slots s c).

Lemma free_held (ch : string) (s : St) (m : nat) :
  st_slots s ch = S m -> freeBacklogSlotIfNeeded ch true s = (false, withSlots s ch m).
Proof.
  intro H. unfold freeBacklogSlotIfNeeded, bind, getSlots. rewrite H. reflexivity.
Qed.

Lemma free_not_held (ch : string) (s : St) :
  freeBacklogSlotIfNeeded ch false s = (false, s).
Proof. reflexivity. Qed.

(** Releasing the slot twice is releasing it once. *)
Lemma free_idempotent (ch : string) (b : bool) (s : St) :
  let (b', s') := freeBacklogSlotIfNeeded ch b s in
  freeBacklogSlotIfNeeded ch b' s' = (b', s').
Proof.
  destruct b; [|reflexivity].
  unfold freeBacklogSlotIfNeeded, bind, getSlots, setSlots, ret.
  destruct (st_slots s ch) as [|m] eqn:E; simpl; rewrite ?E; reflexivity.
Qed.

Lemma withSlots_restore (s : St) (ch : string) (n : nat) (c : string) :
  st_slots s ch = n ->
  st_slots (withSlots (withSlots s ch (S n)) ch n) c = st_slots s c.
Proof.
  intro H. simpl. destruct (String.eqb_spec c ch) as [->|]; [symmetry; exact H|reflexivity].
Qed.

Section Loop.

Variables (h : rateLimitHandler) (ctx : Ctx) (key ch : string) (k : M (option err)).

(** Retry wake-ups whose [Allow] rejects keep the call waiting with its
    slot; only the limiter's call count moves. *)
Lemma backlogLoop_rejections (len : nat) :
  forall s ra rest,
    (forall j, (j < len)%nat -> rejects (limiter h (st_allowCalls s + j) key)) ->
    exists ra',
      backlogLoop h ctx key ch k (repeat WRetryTimer len ++ rest) true ra s
      = backlogLoop h ctx key ch k rest true ra'
          (mkSt (st_handlerCalls s) (st_allowCalls s + len) (st_trace s) (st_slots s)).
Proof.
  induction len as [|len IH]; intros s ra rest Hr.
  - exists ra. simpl. rewrite Nat.add_0_r. destruct s; reflexivity.
  - destruct (Hr 0%nat ltac:(lia)) as [He Ha]. rewrite Nat.add_0_r in He, Ha.
    simpl repeat. rewrite <- app_comm_cons. simpl backlogLoop.
    unfold bind at 1, Allow. rewrite He, Ha.
    destruct (IH (mkSt (st_handlerCalls s) (S (st_allowCalls s)) (st_trace s) (st_slots s))
                 (allowRetryAfter (limiter h (st_allowCalls s) key)) rest) as [ra' E].
    { intros j Hj. simpl. replace (S (st_allowCalls s + j))%nat with (st_allowCalls s + S j)%nat by lia.
      apply Hr. lia. }
    exists ra'. rewrite E. simpl. replace (S (st_allowCalls s + len))%nat with (st_allowCalls s + S len)%nat by lia.
    reflexivity.
Qed.

End Loop.

Lemma handleBacklogProcessing_enter (h : rateLimitHandler) (ctx : Ctx) (key : string) (ra : Z)
  (gbs : string -> string) (wakes : list wake) (k : M (option err)) (s : St) :
  (st_slots s (gbs key) < backlogCap h)%nat ->
  handleBacklogProcessing h ctx key ra gbs wakes k s =
  (let (rb, s') := backlogLoop h ctx key (gbs key) k wakes true ra
                     (withSlots s (gbs key) (S (st_slots s (gbs key)))) in
   match fst rb with
   | Blocked => (Blocked, s')
   | Done e => let (_, s'') := freeBacklogSlotIfNeeded (gbs key) (snd rb) s' in (Done e, s'')
   end).
Proof.
  intro H. unfold handleBacklogProcessing, bind, getSlots.
  rewrite (proj2 (Nat.ltb_lt _ _) H). unfold setSlots.
  change (mkSt (st_handlerCalls s) (st_allowCalls s) (st_trace s)
            (fun c => if String.eqb c (gbs key) then S (st_slots s (gbs key)) else st_slots s c))
    with (withSlots s (gbs key) (S (st_slots s (gbs key)))).
  destruct (backlogLoop h ctx key (gbs key) k wakes true ra _) as [[r b] s'].
  destruct r; reflexivity.
Qed.

(** The state reached after [len] rejected retries, slot held. *)
Definition waitingSt (s : St) (ch : string) (len : nat) : St :=
  mkSt (st_handlerCalls s) (st_allowCalls s + len) (st_trace s)
    (st_slots (withSlots s ch (S (st_slots s ch)))).

Lemma waitingSt_held (s : St) (ch : string) (len : nat) :
  st_slots (waitingSt s ch len) ch = S (st_slots s ch).
Proof. simpl. rewrite String.eqb_refl. reflexivity. Qed.

Lemma waitingSt_release (s : St) (ch : string) (len : nat) (c : string) :
  st_slots (withSlots (waitingSt s ch len) ch (st_slots s ch)) c = st_slots s c.
Proof. simpl. destruct (String.eqb_spec c ch) as [->|]; reflexivity. Qed.

Lemma enter_after_rejections (h : rateLimitHandler) (ctx : Ctx) (key : string) (ra : Z)
  (gbs : string -> string) (k : M (option err)) (s : St) (len : nat) (rest : list wake) :
  (st_slots s (gbs key) < backlogCap h)%nat ->
  (forall j, (j < len)%nat -> rejects (limiter h (st_allowCalls s + j) key)) ->
  exists ra',
    handleBacklogProcessing h ctx key ra gbs (repeat WRetryTimer len ++ rest) k s =
    (let (rb, s') := backlogLoop h ctx key (gbs key) k rest true ra' (waitingSt s (gbs key) len) in
     match fst rb with
     | Blocked => (Blocked, s')
     | Done e => let (_, s'') := freeBacklogSlotIfNeeded (gbs key) (snd rb) s' in (Done e, s'')
     end).
Proof.
  intros Hc Hr. rewrite handleBacklogProcessing_enter by exact Hc.
  destruct (backlogLoop_rejections h ctx key (gbs key) k len
              (withSlots s (gbs key) (S (st_slots s (gbs key)))) ra rest Hr) as [ra' E].
  exists ra'. rewrite E. reflexivity.
Qed.

(** C5: the backlog protocol of [handleBacklogProcessing] for a call
    that [Allow] rejected with hint [ra] and key [key] (channel
    [gbs key]).  If the channel is full the call is rejected at once
    through [onReject] and no slot is taken.  Otherwise it takes a slot
    and, after any number of retries that [Allow] rejects: it keeps the
    slot while it waits; on context cancellation it calls [onError] with
    [ctx.Err()]; on backlog timeout it calls [onReject]; on an [Allow]
    error it calls [onError]; on admission it runs the handler.  On each
    of these exits the slot is released (the handler starts with the
    occupancies of the call's start), and releasing is idempotent. *)
Theorem backlog_protocol (h : rateLimitHandler) (ctx : Ctx) (key : string) (ra : Z)
  (gbs : string -> string) (k : M (option err)) (s : St) :
  let ch := gbs key in
  let lg := ctx_logger ctx in
  ((backlogCap h <= st_slots s ch)%nat ->
     forall wakes, handleBacklogProcessing h ctx key ra gbs wakes k s =
       (Done (onReject h (makeParams key false ra) lg),
        mkSt (st_handlerCalls s) (st_allowCalls s)
          (st_trace s ++ [EvOnReject (makeParams key false ra)]) (st_slots s)))
  /\ ((st_slots s ch < backlogCap h)%nat ->
      forall len,
        (forall j, (j < len)%nat -> rejects (limiter h (st_allowCalls s + j) key)) ->
        let pre := repeat WRetryTimer len in
        (exists s',
           handleBacklogProcessing h ctx key ra gbs pre k s = (Blocked, s')
           /\ st_slots s' ch = S (st_slots s ch))
        /\ (forall w, exists ra' s',
              handleBacklogProcessing h ctx key ra gbs (pre ++ WCtxDone :: w) k s
              = (Done (onError h (makeParams key false ra') (ctx_cancelErr ctx) lg), s')
              /\ st_trace s' = st_trace s ++ [EvOnError (makeParams key false ra') (ctx_cancelErr ctx)]
              /\ forall c, st_slots s' c = st_slots s c)
        /\ (forall w, exists ra' s',
              handleBacklogProcessing h ctx key ra gbs (pre ++ WBacklogTimer :: w) k s
              = (Done (onReject h (makeParams key false ra') lg), s')
              /\ st_trace s' = st_trace s ++ [EvOnReject (makeParams key false ra')]
              /\ forall c, st_slots s' c = st_slots s c)
        /\ (forall w b ra2 e,
              limiter h (st_allowCalls s + len) key = mkAllow b ra2 (Some e) ->
              exists s',
              handleBacklogProcessing h ctx key ra gbs (pre ++ WRetryTimer :: w) k s
              = (Done (onError h (makeParams key false ra2) (ErrWrap "rate limit" e) lg), s')
              /\ st_trace s' = st_trace s ++ [EvOnError (makeParams key false ra2) (ErrWrap "rate limit" e)]
              /\ forall c, st_slots s' c = st_slots s c)
        /\ (forall w ra2,
              limiter h (st_allowCalls s + len) key = mkAllow true ra2 None ->
              exists s1,
              handleBacklogProcessing h ctx key ra gbs (pre ++ WRetryTimer :: w) k s
              = (Done (fst (k s1)), snd (k s1))
              /\ st_trace s1 = st_trace s
              /\ forall c, st_slots s1 c = st_slots s c))
  /\ (forall ch' b s0,
        let (b', s1) := freeBacklogSlotIfNeeded ch' b s0 in
        freeBacklogSlotIfNeeded ch' b' s1 = (b', s1)).
Proof.
  intros ch lg. subst ch lg. split; [|split].
  - intros Hfull wakes. unfold handleBacklogProcessing, bind, getSlots.
    replace (Nat.ltb (st_slots s (gbs key)) (backlogCap h)) with false
      by (symmetry; apply Nat.ltb_ge; exact Hfull).
    reflexivity.
  - intros Hc len Hr pre. subst pre.
    pose proof (waitingSt_held s (gbs key) len) as Hw.
    split; [|split; [|split; [|split]]].
    + destruct (enter_after_rejections h ctx key ra gbs k s len [] Hc Hr) as [ra' E].
      rewrite app_nil_r in E. rewrite E. simpl. eexists. split; [reflexivity|exact Hw].
    + intro w.
      destruct (enter_after_rejections h ctx key ra gbs k s len (WCtxDone :: w) Hc Hr) as [ra' E].
      rewrite E. simpl backlogLoop.
      unfold bind, getSlots, setSlots, ret, callOnError, emit. rewrite Hw.
      eexists ra', _. split; [reflexivity|]. split; [reflexivity|].
      intro c; simpl; destruct (String.eqb_spec c (gbs key)) as [->|]; reflexivity.
    + intro w.
      destruct (enter_after_rejections h ctx key ra gbs k s len (WBacklogTimer :: w) Hc Hr) as [ra' E].
      rewrite E. simpl backlogLoop.
      unfold bind, getSlots, setSlots, ret, callOnReject, emit. rewrite Hw.
      eexists ra', _. split; [reflexivity|]. split; [reflexivity|].
      intro c; simpl; destruct (String.eqb_spec c (gbs key)) as [->|]; reflexivity.
    + intros w b ra2 e Ha.
      destruct (enter_after_rejections h ctx key ra gbs k s len (WRetryTimer :: w) Hc Hr) as [ra' E].
      rewrite E. simpl backlogLoop.
      unfold Allow, bind, getSlots, setSlots, ret, callOnError, emit.
      replace (st_allowCalls (waitingSt s (gbs key) len)) with (st_allowCalls s + len)%nat by reflexivity.
      rewrite Ha. simpl. rewrite String.eqb_refl. simpl.
      eexists. split; [reflexivity|]. split; [reflexivity|].
      intro c; simpl; destruct (String.eqb_spec c (gbs key)) as [->|]; reflexivity.
    + intros w ra2 Ha.
      destruct (enter_after_rejections h ctx key ra gbs k s len (WRetryTimer :: w) Hc Hr) as [ra' E].
      rewrite E. simpl backlogLoop.
      unfold Allow, bind, getSlots, setSlots, ret.
      replace (st_allowCalls (waitingSt s (gbs key) len)) with (st_allowCalls s + len)%nat by reflexivity.
      rewrite Ha. simpl. rewrite String.eqb_refl. simpl.
      match goal with |- context [k ?s1] => exists s1; destruct (k s1) as [e s2] end.
      split.
      * reflexivity.
      * split; [reflexivity|].
        intro c; simpl; destruct (String.eqb_spec c (gbs key)) as [->|]; reflexivity.
  - intros ch' b s0. apply free_idempotent.
Qed.

(** A keyed engine with a backlog of one slot per key. *)
Definition keyK : string := "k".
Definition handlerBacklog1 : rateLimitHandler :=
  mkHandler rejectAll (Some (fun _ => (keyK, false, None))) (Some (fun key => key)) 1
    DefaultRateLimitBacklogTimeout false DefaultRateLimitOnReject DefaultRateLimitOnError.

(** The backlog slot of key [k] already taken by another call. *)
Definition stFull : St := mkSt 0 0 [] (fun _ => 1%nat).

Lemma backlog_protocol_witness :
  ((backlogCap handlerBacklog1 <= st_slots stFull keyK)%nat
   /\ handleBacklogProcessing handlerBacklog1 ctxWithLogger keyK 1000000000 (fun key => key)
        [WCtxDone] oneHandlerCall stFull
      = (Done (onReject handlerBacklog1 (makeParams keyK false 1000000000) true),
         mkSt 0 0 [EvOnReject (makeParams keyK false 1000000000)] (st_slots stFull)))
  /\ ((st_slots st0 keyK < backlogCap handlerBacklog1)%nat
   /\ exists ra' s',
        handleBacklogProcessing handlerBacklog1 ctxWithLogger keyK 1000000000 (fun key => key)
          (repeat WRetryTimer 0 ++ [WCtxDone]) oneHandlerCall st0
        = (Done (onError handlerBacklog1 (makeParams keyK false ra') (ctx_cancelErr ctxWithLogger) true), s')
        /\ st_trace s' = st_trace st0 ++ [EvOnError (makeParams keyK false ra') (ctx_cancelErr ctxWithLogger)]
        /\ forall c, st_slots s' c = st_slots st0 c).
Proof.
  split.
  - split; [simpl; lia|].
    pose proof (backlog_protocol handlerBacklog1 ctxWithLogger keyK 1000000000 (fun key => key)
                  oneHandlerCall stFull) as T.
    cbv zeta in T. destruct T as [T1 _]. apply (T1 ltac:(simpl; lia)).
  - split; [simpl; lia|].
    pose proof (backlog_protocol handlerBacklog1 ctxWithLogger keyK 1000000000 (fun key => key)
                  oneHandlerCall st0) as T.
    cbv zeta in T. destruct T as [_ [T2 _]].
    destruct (T2 ltac:(simpl; lia) 0%nat ltac:(intros; lia)) as [_ [Tc _]].
    apply (Tc []).
Defined.

End RateLimitProofs.

(* ------------------------------------------------------------------ *)
(** ** Server shell *)

Module ServerProofs.
Import Server.

(** C2 (code defect): when the caller supplies no stream interceptors,
    [New] registers the canonical unary chain but no stream chain at
    all: stream calls bypass the five canonical interceptors. *)
Theorem New_no_stream_chain_without_user_stream_interceptors
  (cfg : Config) (loadTLS : option err) (options : list (serverOptions -> serverOptions))
  (sopts : list ServerOption) :
  streamInterceptors (fold_left (fun o f => f o) options emptyServerOptions) = [] ->
  New cfg loadTLS options = inr sopts ->
  In (ChainUnaryInterceptor
        (canonicalUnary ++ unaryInterceptors (fold_left (fun o f => f o) options emptyServerOptions)))
     sopts
  /\ forall l, ~ In (ChainStreamInterceptor l) sopts.
Proof.
  intros Hs HN. unfold New in HN. rewrite Hs in HN. simpl in HN.
  destruct (if tlsEnabled cfg then loadTLS else None); [discriminate|].
  injection HN as <-.
  split.
  - apply in_or_app. right. left. reflexivity.
  - intros l Hin. apply in_app_or in Hin. destruct Hin as [Hin|[Hin|[]]]; [|discriminate].
    repeat match goal with
           | H : In _ (if ?b then _ else _) |- _ => destruct b
           | H : In _ (_ ++ _) |- _ => apply in_app_or in H; destruct H as [H|H]
           | H : In _ [] |- _ => destruct H
           | H : In _ (_ :: _) |- _ => destruct H as [H|H]; [discriminate|]
           end.
Qed.

Definition cfgPlain : Config := mkConfig false 0 0 0.

Lemma New_no_stream_chain_without_user_stream_interceptors_witness :
  New cfgPlain None [] = inr [KeepaliveParams; KeepaliveEnforcementPolicy; ChainUnaryInterceptor canonicalUnary]
  /\ In (ChainUnaryInterceptor (canonicalUnary ++ [])) [KeepaliveParams; KeepaliveEnforcementPolicy; ChainUnaryInterceptor canonicalUnary]
  /\ forall l, ~ In (ChainStreamInterceptor l) [KeepaliveParams; KeepaliveEnforcementPolicy; ChainUnaryInterceptor canonicalUnary].
Proof.
  assert (HN : New cfgPlain None [] = inr [KeepaliveParams; KeepaliveEnforcementPolicy; ChainUnaryInterceptor canonicalUnary])
    by reflexivity.
  split; [exact HN|].
  exact (New_no_stream_chain_without_user_stream_interceptors cfgPlain None [] _ eq_refl HN).
Defined.

End ServerProofs.

(* ------------------------------------------------------------------ *)
(** ** Request-ID interceptor *)

Module RequestIDProofs.
Import RequestID.

(** The inbound [x-request-id] value the interceptor reads: the first
    one, or the empty string. *)
Definition inboundRequestID (ctx : Ctx) : string :=
  match incoming ctx with
  | Some md =>
      match mdGet md headerRequestIDKey with
      | v :: _ => v
      | [] => EmptyString
      end
  | None => EmptyString
  end.

(** C7 (amended): the interceptor adopts the first inbound
    [x-request-id] value if it is non-empty and mints one otherwise.
    If setting the response header succeeds (the context carries a
    transport stream whose headers are not yet sent), it then always
    mints a further identifier for [x-int-request-id] (with the next
    index of the generator, so even when the request ID was adopted);
    both values are attached to the context the handler receives and
    appended, in that order, to the response header metadata.  If
    setting the header fails, the interceptor returns exactly the error
    of [grpc.SetHeader] and does not call the handler (the result is
    [inl], no context is handed on, and the stream is untouched). *)
Theorem requestID_adopt_or_mint (xidNew : nat -> string) (ctx : Ctx) (s : St) :
  let rid := inboundRequestID ctx in
  let requestID := if String.eqb rid EmptyString then xidNew (minted s) else rid in
  let n := if String.eqb rid EmptyString then S (minted s) else minted s in
  let ctx' := withValue (withValue ctx CtxRequestID requestID) CtxInternalRequestID (xidNew n) in
  (rid <> EmptyString -> requestID = rid)
  /\ (ss_present (stream s) = true -> ss_headerSent (stream s) = false ->
      RequestIDServerUnaryInterceptor xidNew ctx s
      = (inr ctx',
         mkSt (S n) (mkStream true false
                      (ss_header (stream s) ++ [(headerRequestIDKey, requestID)]
                       ++ [(headerRequestInternalIDKey, xidNew n)])))
      /\ lookupValue ctx' CtxRequestID = Some requestID
      /\ lookupValue ctx' CtxInternalRequestID = Some (xidNew n))
  /\ (ss_present (stream s) = false \/ ss_headerSent (stream s) = true ->
      exists e,
        SetHeader [(headerRequestIDKey, requestID)] (stream s) = inl e
        /\ RequestIDServerUnaryInterceptor xidNew ctx s = (inl e, mkSt n (stream s))).
Proof.
  intros rid requestID n ctx'. split; [|split].
  - intro Hne. subst requestID.
    destruct (String.eqb_spec rid EmptyString); [contradiction|reflexivity].
  - intros Hp Hs. split; [|split; reflexivity].
    unfold RequestIDServerUnaryInterceptor. fold (inboundRequestID ctx). fold rid.
    subst requestID n ctx'.
    destruct (String.eqb rid EmptyString); unfold mint; simpl;
      unfold SetHeader; rewrite Hp, Hs; simpl; rewrite <- app_assoc; reflexivity.
  - intro Hf. subst requestID n. destruct s as [n0 ss0]. simpl in Hf |- *.
    unfold RequestIDServerUnaryInterceptor. fold (inboundRequestID ctx). fold rid.
    destruct (String.eqb rid EmptyString); unfold mint; simpl; unfold SetHeader;
      destruct (ss_present ss0); destruct (ss_headerSent ss0); simpl;
      try (eexists; split; reflexivity); destruct Hf; discriminate.
Qed.

(** The n-th minted identifier, for the concrete runs. *)
Definition xidGen (n : nat) : string := match n with O => "id0" | _ => "id1" end.

Definition streamOpen : Stream := mkStream true false [].
Definition stOpen : St := mkSt 0 streamOpen.

Definition ctxWith (v : string) : Ctx := mkCtx (Some [(headerRequestIDKey, v)]) [].

Lemma requestID_adopt_or_mint_witness :
  let s := stOpen in let ctx := ctxWith "abc" in
  let sSent := mkSt 0 (mkStream true true []) in
  ss_present (stream s) = true /\ ss_headerSent (stream s) = false /\
  RequestIDServerUnaryInterceptor xidGen ctx s
  = (inr (withValue (withValue ctx CtxRequestID "abc") CtxInternalRequestID (xidGen 0)),
     mkSt 1 (mkStream true false ([] ++ [(headerRequestIDKey, "abc"%string)]
                                   ++ [(headerRequestInternalIDKey, xidGen 0)])))
  /\ ss_headerSent (stream sSent) = true
  /\ exists e, SetHeader [(headerRequestIDKey, "abc"%string)] (stream sSent) = inl e
     /\ RequestIDServerUnaryInterceptor xidGen ctx sSent = (inl e, sSent).
Proof.
  cbv zeta. split; [reflexivity|]. split; [reflexivity|]. split.
  - apply (proj1 (proj2 (requestID_adopt_or_mint xidGen (ctxWith "abc") stOpen)) eq_refl eq_refl).
  - split; [reflexivity|].
    apply (proj2 (proj2 (requestID_adopt_or_mint xidGen (ctxWith "abc") (mkSt 0 (mkStream true true [])))) (or_intror eq_refl)).
Defined.

(** C7 refuted as stated: an inbound [x-request-id] that is present but
    empty is not adopted; a fresh identifier replaces it.  Nor is
    anything published on every call: when the response headers were
    already sent, the call fails, no context reaches the handler and
    no response header is added. *)
Lemma requestID_empty_inbound_replaced :
  mdGet [(headerRequestIDKey, EmptyString)] headerRequestIDKey = [EmptyString]
  /\ match fst (RequestIDServerUnaryInterceptor xidGen (ctxWith EmptyString) stOpen) with
     | inr ctx' => lookupValue ctx' CtxRequestID = Some "id0"%string
                   /\ lookupValue ctx' CtxRequestID <> Some EmptyString
     | inl _ => False
     end
  /\ match RequestIDServerUnaryInterceptor xidGen (ctxWith "abc") (mkSt 0 (mkStream true true [])) with
     | (inl _, s') => ss_header (stream s') = []
     | (inr _, _) => False
     end.
Proof.
  split; [reflexivity|]. split.
  - vm_compute. split; [reflexivity|discriminate].
  - vm_compute. reflexivity.
Qed.

End RequestIDProofs.

(* ------------------------------------------------------------------ *)
(** ** Logging interceptor *)

Module LoggingProofs.
Import Logging.

Lemma isLoggingDisabled_In (fm : string) (l : list string) :
  isLoggingDisabled fm l = true <-> In fm l.
Proof.
  induction l as [|m l IH]; simpl.
  - split; [discriminate|intros []].
  - destruct (String.eqb_spec fm m) as [->|Hn].
    + split; [intros _; left; reflexivity|reflexivity].
    + rewrite IH. split; [intro; right; assumption|intros [E|H]; [congruence|exact H]].
Qed.

Lemma code_eqb_OK (c : code) : code_eqb c OK = true <-> c = OK.
Proof. destruct c; simpl; split; congruence. Qed.

(** C8: for an excluded method the interceptor emits the finish entry
    iff the call's status code is not [OK], and never the start entry
    (whatever [callStart] says); for any other method the finish entry
    is always emitted. *)
Theorem logging_exclusion (opts : loggingOptions) (fullMethod : string) (logFields : list field)
  (startTime endTime : Z) (resp : option nat) (e : option err) (lpFields : list field) :
  let out := fst (LoggingServerUnaryInterceptor opts fullMethod logFields startTime endTime
                    (resp, e) lpFields) in
  (In fullMethod (excludedMethods opts) ->
     (existsb isFinished out = true <-> statusCode e <> OK)
     /\ existsb isStarted out = false)
  /\ (~ In fullMethod (excludedMethods opts) -> existsb isFinished out = true).
Proof.
  intro out. subst out. unfold LoggingServerUnaryInterceptor, logCallCompletion. simpl.
  split.
  - intro Hin. apply isLoggingDisabled_In in Hin. rewrite Hin. simpl.
    rewrite andb_false_r. simpl.
    destruct (code_eqb (statusCode e) OK) eqn:Ec; simpl.
    + apply code_eqb_OK in Ec. split; [split; [discriminate|intro H; contradiction]|reflexivity].
    + split.
      * split; [intros _ H; apply code_eqb_OK in H; congruence|reflexivity].
      * destruct (slowCallThreshold opts <=? endTime - startTime); reflexivity.
  - intro Hn. destruct (isLoggingDisabled fullMethod (excludedMethods opts)) eqn:Ed.
    + apply isLoggingDisabled_In in Ed. contradiction.
    + simpl. rewrite existsb_app. apply orb_true_iff. right. reflexivity.
Qed.

Definition optsExcl : loggingOptions := mkLoggingOptions true ["/svc/Health"%string] false 1000000000.

Lemma logging_exclusion_witness :
  In "/svc/Health"%string (excludedMethods optsExcl)
  /\ ((existsb isFinished (fst (LoggingServerUnaryInterceptor optsExcl "/svc/Health" [] 0 5
         (None, Some (ErrStatus Internal "boom")) [])) = true
       <-> statusCode (Some (ErrStatus Internal "boom")) <> OK)
     /\ existsb isStarted (fst (LoggingServerUnaryInterceptor optsExcl "/svc/Health" [] 0 5
         (None, Some (ErrStatus Internal "boom")) [])) = false).
Proof.
  assert (H : In "/svc/Health"%string (excludedMethods optsExcl)) by (left; reflexivity).
  split; [exact H|].
  exact (proj1 (logging_exclusion optsExcl "/svc/Health" [] 0 5 None
                  (Some (ErrStatus Internal "boom")) []) H).
Defined.

End LoggingProofs.

(* ------------------------------------------------------------------ *)
(** ** LRU cache: the public API *)

Module LRUApiProofs.
Import LRU.

Section Api.

Context {K V : Type} (K_eq_dec : forall x y : K, {x = y} + {x <> y}).

(** The cache invariant the Go structure keeps: [maxEntries] is
    positive, the list carries each key once (the [cache] map is keyed
    by it), and the cache holds at most [maxEntries] entries. *)
Definition wf (c : LRUCache K V) : Prop :=
  0 < maxEntries c /\ NoDup (map e_key (lruList c)) /\ lenCache c <= maxEntries c.

Lemma key_eqb_spec (a b : K) : key_eqb K_eq_dec a b = true <-> a = b.
Proof. unfold key_eqb; destruct (K_eq_dec a b); split; congruence. Qed.

Lemma key_eqb_refl (a : K) : key_eqb K_eq_dec a a = true.
Proof. apply key_eqb_spec; reflexivity. Qed.

Lemma lookup_Some (k : K) (l : list (cacheEntry K V)) e :
  lookup K_eq_dec k l = Some e -> e_key e = k /\ In e l.
Proof.
  induction l as [|x l IH]; simpl; [discriminate|].
  destruct (key_eqb K_eq_dec (e_key x) k) eqn:E.
  - intros [= <-]. apply key_eqb_spec in E. auto.
  - intro H. destruct (IH H). auto.
Qed.

Lemma lookup_None (k : K) (l : list (cacheEntry K V)) :
  lookup K_eq_dec k l = None <-> ~ In k (map e_key l).
Proof.
  induction l as [|x l IH]; simpl; [tauto|].
  destruct (key_eqb K_eq_dec (e_key x) k) eqn:E.
  - apply key_eqb_spec in E. split; [discriminate|intro H; exfalso; apply H; left; exact E].
  - rewrite IH. split.
    + intros H [H1|H1]; [rewrite H1, key_eqb_refl in E; discriminate|exact (H H1)].
    + intros H H1. apply H. right. exact H1.
Qed.

Lemma lookup_head (k : K) (v : V) x l :
  lookup K_eq_dec k (mkEntry k v x :: l) = Some (mkEntry k v x).
Proof. simpl. rewrite key_eqb_refl. reflexivity. Qed.

Lemma lookup_removeKey_other (k k' : K) (l : list (cacheEntry K V)) :
  k' <> k -> lookup K_eq_dec k' (removeKey K_eq_dec k l) = lookup K_eq_dec k' l.
Proof.
  intro Hne. induction l as [|x l IH]; simpl; [reflexivity|].
  destruct (key_eqb K_eq_dec (e_key x) k) eqn:E; simpl.
  - apply key_eqb_spec in E.
    destruct (key_eqb K_eq_dec (e_key x) k') eqn:E'; [apply key_eqb_spec in E'; congruence|].
    exact IH.
  - rewrite IH. reflexivity.
Qed.

Lemma map_key_removeKey (k : K) (l : list (cacheEntry K V)) :
  map e_key (removeKey K_eq_dec k l) = filter (fun k' => negb (key_eqb K_eq_dec k' k)) (map e_key l).
Proof.
  induction l as [|x l IH]; simpl; [reflexivity|].
  destruct (key_eqb K_eq_dec (e_key x) k); simpl; rewrite IH; reflexivity.
Qed.

Lemma NoDup_removeKey (k : K) (l : list (cacheEntry K V)) :
  NoDup (map e_key l) -> NoDup (map e_key (removeKey K_eq_dec k l)).
Proof. intro H. rewrite map_key_removeKey. apply NoDup_filter. exact H. Qed.

Lemma notin_removeKey (k : K) (l : list (cacheEntry K V)) :
  ~ In k (map e_key (removeKey K_eq_dec k l)).
Proof.
  rewrite map_key_removeKey, filter_In, key_eqb_refl. simpl. intros [_ H]. discriminate.
Qed.

Lemma removeKey_length_le (k : K) (l : list (cacheEntry K V)) :
  (List.length (removeKey K_eq_dec k l) <= List.length l)%nat.
Proof.
  induction l as [|x l IH]; simpl; [lia|].
  destruct (key_eqb K_eq_dec (e_key x) k); simpl; lia.
Qed.

Lemma removeKey_length_lt (k : K) (l : list (cacheEntry K V)) :
  In k (map e_key l) -> (List.length (removeKey K_eq_dec k l) < List.length l)%nat.
Proof.
  induction l as [|x l IH]; simpl; [intros []|].
  intro Hin. destruct (key_eqb K_eq_dec (e_key x) k) eqn:E; simpl.
  - pose proof (removeKey_length_le k l). lia.
  - destruct Hin as [Hin|Hin]; [rewrite Hin, key_eqb_refl in E; discriminate|].
    specialize (IH Hin). lia.
Qed.

Lemma NoDup_firstn_gen {A : Type} (n : nat) (l : list A) : NoDup l -> NoDup (firstn n l).
Proof.
  intro H. rewrite <- (firstn_skipn n l) in H. apply NoDup_app_remove_r in H. exact H.
Qed.

Lemma removeOldest_app (m : Z) (l : list (cacheEntry K V)) x mc :
  removeOldest (mkCache m (l ++ [x]) mc) = (mkCache m l mc, Some x).
Proof.
  unfold removeOldest; simpl. rewrite rev_app_distr. simpl. rewrite rev_involutive. reflexivity.
Qed.

(** [addNew] below the bound pushes the entry and reports the new
    amount; on a full cache it pushes the entry and evicts the back one,
    counting one eviction. *)
Lemma addNew_spec (k : K) (v : V) x (c : LRUCache K V) :
  (lenCache c < maxEntries c ->
     addNew k v x c = mkCache (maxEntries c) (mkEntry k v x :: lruList c)
                        (SetAmount (lenCache c + 1) (metricsCollector c)))
  /\ (forall l0 x0, lruList c = l0 ++ [x0] -> maxEntries c <= lenCache c ->
     addNew k v x c = mkCache (maxEntries c) (mkEntry k v x :: l0)
                        (AddEvictions 1 (metricsCollector c))).
Proof.
  unfold addNew, lenCache. cbn [lruList maxEntries metricsCollector List.length]. split.
  - intro H. replace (Z.of_nat (S (List.length (lruList c))) <=? maxEntries c) with true
      by (symmetry; apply Z.leb_le; lia).
    cbn [lruList maxEntries metricsCollector List.length].
    f_equal. f_equal. lia.
  - intros l0 x0 Hl H. replace (Z.of_nat (S (List.length (lruList c))) <=? maxEntries c) with false
      by (symmetry; apply Z.leb_gt; lia).
    rewrite Hl, app_comm_cons, removeOldest_app. reflexivity.
Qed.

Lemma addNew_front (k : K) (v : V) x (c : LRUCache K V) :
  wf c -> exists rest, lruList (addNew k v x c) = mkEntry k v x :: rest
                       /\ NoDup (map e_key rest) /\ (forall y, In y rest -> In y (lruList c))
                       /\ Z.of_nat (List.length rest) <= lenCache c
                       /\ maxEntries (addNew k v x c) = maxEntries c.
Proof.
  intros (Hm & Hn & Hl). destruct (addNew_spec k v x c) as [H1 H2].
  destruct (Z_lt_le_dec (lenCache c) (maxEntries c)) as [Hlt|Hge].
  - rewrite (H1 Hlt). exists (lruList c). simpl. repeat split; auto; unfold lenCache; lia.
  - destruct (lruList c) as [|y l] eqn:El; [unfold lenCache in *; rewrite El in *; simpl in *; lia|].
    destruct (exists_last (l := y :: l) ltac:(discriminate)) as [l0 [x0 Hx]].
    rewrite (H2 l0 x0 Hx Hge). exists l0. simpl.
    rewrite Hx in Hn. rewrite map_app in Hn. apply NoDup_app_remove_r in Hn.
    unfold lenCache in *. rewrite El, Hx, length_app in *. simpl in *.
    repeat split; auto; [|lia].
    intros z Hz. assert (Hz' : In z (l0 ++ [x0])) by (apply in_or_app; left; exact Hz).
    rewrite <- Hx in Hz'. exact Hz'.
Qed.

Lemma wf_addNew (k : K) (v : V) x (c : LRUCache K V) :
  wf c -> lookup K_eq_dec k (lruList c) = None -> wf (addNew k v x c).
Proof.
  intros Hw Hk. pose proof Hw as (Hm & Hn & Hl).
  destruct (addNew_front k v x c Hw) as [rest (Hr & Hnr & Hin & Hlr & Hmx)].
  unfold wf, lenCache. rewrite Hr, Hmx. simpl. repeat split; [lia| |].
  - constructor; [|exact Hnr]. intro H. apply (proj1 (lookup_None k (lruList c)) Hk).
    apply in_map_iff in H. destruct H as [y [Hy Hy']]. rewrite <- Hy. apply in_map, Hin, Hy'.
  - destruct (addNew_spec k v x c) as [H1 H2].
    destruct (Z_lt_le_dec (lenCache c) (maxEntries c)) as [Hlt|Hge].
    + rewrite (H1 Hlt) in Hr. simpl in Hr. injection Hr as <-. unfold lenCache in Hlt. lia.
    + assert (lenCache c = maxEntries c) by lia.
      destruct (lruList c) as [|y l] eqn:El; [unfold lenCache in *; rewrite El in *; simpl in *; lia|].
      destruct (exists_last (l := y :: l) ltac:(discriminate)) as [l0 [x0 Hx]].
      rewrite (H2 l0 x0 Hx Hge) in Hr. simpl in Hr. injection Hr as <-.
      unfold lenCache in *. rewrite El, Hx, length_app in *. simpl in *. lia.
Qed.

Lemma wf_moveToFront (e : cacheEntry K V) (c : LRUCache K V) mc :
  wf c -> In (e_key e) (map e_key (lruList c)) ->
  wf (mkCache (maxEntries c) (moveToFront K_eq_dec e (lruList c)) mc).
Proof.
  intros (Hm & Hn & Hl) Hin. unfold wf, lenCache, moveToFront in *. simpl.
  repeat split; [lia| |].
  - constructor; [apply notin_removeKey|apply NoDup_removeKey, Hn].
  - pose proof (removeKey_length_lt (e_key e) (lruList c) Hin). lia.
Qed.

Lemma wf_get (now : Z) (k : K) (inc : bool) (c : LRUCache K V) :
  wf c -> wf (snd (get K_eq_dec now k inc c)).
Proof.
  intro Hw. pose proof Hw as (Hm & Hn & Hl). unfold get.
  destruct (lookup K_eq_dec k (lruList c)) as [e|] eqn:El; [destruct (expired now e)|]; simpl.
  - unfold wf, lenCache in *. simpl. repeat split; [lia|apply NoDup_removeKey, Hn|].
    pose proof (removeKey_length_le k (lruList c)). lia.
  - apply wf_moveToFront; [exact Hw|]. apply lookup_Some in El. destruct El as [<- Hin].
    apply in_map, Hin.
  - unfold wf, lenCache in *. simpl. auto.
Qed.

Lemma get_miss_absent (now : Z) (k : K) (inc : bool) (c : LRUCache K V) :
  fst (get K_eq_dec now k inc c) = None -> lookup K_eq_dec k (lruList (snd (get K_eq_dec now k inc c))) = None.
Proof.
  unfold get. destruct (lookup K_eq_dec k (lruList c)) as [e|] eqn:El; [destruct (expired now e)|]; simpl.
  - intros _. apply LRUProofs.lookup_removeKey.
  - discriminate.
  - intros _. exact El.
Qed.

Lemma get_absent (now : Z) (k : K) (inc : bool) (c : LRUCache K V) :
  lookup K_eq_dec k (lruList c) = None ->
  get K_eq_dec now k inc c
  = (None, mkCache (maxEntries c) (lruList c)
             (if inc then IncMisses (metricsCollector c) else metricsCollector c)).
Proof. intro H. unfold get. rewrite H. reflexivity. Qed.

Lemma wf_AddWithTTL (now : Z) (k : K) (v : V) (ttl : Z) (c : LRUCache K V) :
  wf c -> wf (AddWithTTL K_eq_dec now k v ttl c).
Proof.
  intro Hw. unfold AddWithTTL.
  destruct (lookup K_eq_dec k (lruList c)) as [e|] eqn:El.
  - apply wf_moveToFront; [exact Hw|]. simpl. apply lookup_Some in El. destruct El as [<- Hin].
    apply in_map, Hin.
  - apply wf_addNew; assumption.
Qed.

Lemma AddWithTTL_front (now : Z) (k : K) (v : V) (ttl : Z) (c : LRUCache K V) :
  wf c -> exists rest,
    lruList (AddWithTTL K_eq_dec now k v ttl c) = mkEntry k v (expiresAtOf now ttl) :: rest.
Proof.
  intro Hw. unfold AddWithTTL.
  destruct (lookup K_eq_dec k (lruList c)) as [e|] eqn:El.
  - simpl. eexists. reflexivity.
  - destruct (addNew_front k v (expiresAtOf now ttl) c Hw) as [rest [Hr _]]. exists rest. exact Hr.
Qed.

Lemma addNew_hits_misses (k : K) (v : V) x (c : LRUCache K V) :
  m_hits (metricsCollector (addNew k v x c)) = m_hits (metricsCollector c)
  /\ m_misses (metricsCollector (addNew k v x c)) = m_misses (metricsCollector c).
Proof.
  unfold addNew. destruct (_ <=? _); simpl; [split; reflexivity|].
  unfold removeOldest; simpl. destruct (rev (lruList c) ++ _); simpl; split; reflexivity.
Qed.

Lemma AddWithTTL_hits_misses (now : Z) (k : K) (v : V) (ttl : Z) (c : LRUCache K V) :
  m_hits (metricsCollector (AddWithTTL K_eq_dec now k v ttl c)) = m_hits (metricsCollector c)
  /\ m_misses (metricsCollector (AddWithTTL K_eq_dec now k v ttl c)) = m_misses (metricsCollector c).
Proof.
  unfold AddWithTTL. destruct (lookup K_eq_dec k (lruList c)); [simpl; split; reflexivity|].
  apply addNew_hits_misses.
Qed.

Lemma get_quiet_hits_misses (now : Z) (k : K) (c : LRUCache K V) :
  m_hits (metricsCollector (snd (get K_eq_dec now k false c))) = m_hits (metricsCollector c)
  /\ m_misses (metricsCollector (snd (get K_eq_dec now k false c))) = m_misses (metricsCollector c).
Proof.
  unfold get. destruct (lookup K_eq_dec k (lruList c)) as [e|]; [destruct (expired now e)|];
    simpl; split; reflexivity.
Qed.

Lemma wf_metrics (c : LRUCache K V) (m : metrics) :
  wf c -> wf (mkCache (maxEntries c) (lruList c) m).
Proof. unfold wf, lenCache. simpl. auto. Qed.

Lemma wf_removeKey (k : K) (c : LRUCache K V) (m : metrics) :
  wf c -> wf (mkCache (maxEntries c) (removeKey K_eq_dec k (lruList c)) m).
Proof.
  intros (Hm & Hn & Hl). unfold wf, lenCache in *. simpl. repeat split; [lia|apply NoDup_removeKey, Hn|].
  pose proof (removeKey_length_le k (lruList c)). lia.
Qed.

(** Dropping entries (as the cleanup sweep does) keeps the keys unique. *)
Lemma keys_unique_after_sweep (keep : cacheEntry K V -> bool) (es : list (cacheEntry K V)) :
  NoDup (map e_key es) -> NoDup (map e_key (filter keep es)).
Proof.
  induction es as [|e es IH]; cbn [filter map]; intro Hu; [constructor|].
  inversion Hu as [|? ? Hnot Hrest]; subst.
  destruct (keep e); cbn [map]; [|apply IH, Hrest].
  constructor; [|apply IH, Hrest].
  intro Hin. apply Hnot. apply in_map_iff in Hin. destruct Hin as [e' [He' Hin]].
  apply filter_In in Hin. rewrite <- He'. apply in_map, Hin.
Qed.

Lemma filter_length_le_gen {A : Type} (p : A -> bool) (l : list A) :
  (List.length (filter p l) <= List.length l)%nat.
Proof. induction l as [|x l IH]; simpl; [lia|]. destruct (p x); simpl; lia. Qed.

(** X1: [NewWithOpts] refuses a non-positive [maxEntries] and a negative
    default TTL, and otherwise builds an empty well-formed cache with
    the given bound, collector and default TTL. *)
Theorem NewWithOpts_validates (m : Z) (mc : metrics) (ttl : Z) :
  ((exists e, @NewWithOpts K V m mc ttl = inl e) <-> m <= 0 \/ ttl < 0)
  /\ (forall c d, NewWithOpts m mc ttl = inr (c, d) ->
        wf c /\ Len c = 0 /\ maxEntries c = m /\ metricsCollector c = mc /\ d = ttl).
Proof.
  unfold NewWithOpts. destruct (Z.leb_spec m 0); [|destruct (Z.ltb_spec ttl 0)].
  - split; [split; [intros _; left; exact H|intros _; eexists; reflexivity]|].
    intros c d Hc. discriminate.
  - split; [split; [intros _; right; exact H0|intros _; eexists; reflexivity]|].
    intros c d Hc. discriminate.
  - split; [split; [intros [e He]; discriminate|intros [H'|H']; lia]|].
    intros c d Hc. injection Hc as <- <-. unfold wf, Len, lenCache. simpl.
    repeat split; auto; try constructor; lia.
Qed.

(** X2: every operation keeps the cache well formed: keys stay unique
    and the cache never holds more than [maxEntries] entries. *)
Theorem wf_preserved {E : Type} (c : LRUCache K V) (now defaultTTL : Z) (k : K) (v p : V)
  (ttl size : Z) (inc : bool) (loadValue : K -> V * Z * option E) :
  wf c ->
  wf (snd (get K_eq_dec now k inc c))
  /\ wf (AddWithTTL K_eq_dec now k v ttl c)
  /\ wf (snd (GetOrAddWithTTL K_eq_dec now k p ttl c))
  /\ wf (snd (GetOrLoadWithTTL K_eq_dec now defaultTTL k loadValue c))
  /\ wf (snd (Remove K_eq_dec k c))
  /\ wf (Purge c)
  /\ wf (snd (Resize size c))
  /\ wf (cleanupTick now c).
Proof.
  intro Hw. split; [apply wf_get, Hw|]. split; [apply wf_AddWithTTL, Hw|]. split; [|split; [|split; [|split; [|split]]]].
  - pose proof (wf_get now k true c Hw) as W1. pose proof (get_miss_absent now k true c) as A1.
    unfold GetOrAddWithTTL. destruct (get K_eq_dec now k true c) as [[v1|] c1]; simpl in *; [exact W1|].
    apply wf_addNew; [exact W1|exact (A1 eq_refl)].
  - pose proof (wf_get now k false c Hw) as W1. pose proof (get_miss_absent now k false c) as A1.
    unfold GetOrLoadWithTTL. destruct (get K_eq_dec now k false c) as [[v1|] c1]; simpl in *.
    + apply wf_metrics, W1.
    + rewrite (get_absent now k false c1 (A1 eq_refl)).
      destruct (loadValue k) as [[v2 t] [e|]]; simpl;
        [apply wf_metrics, W1|apply wf_metrics, wf_AddWithTTL, wf_metrics, W1].
  - unfold Remove. destruct (lookup K_eq_dec k (lruList c)); [apply wf_removeKey, Hw|exact Hw].
  - destruct Hw as (Hm & Hn & Hl). unfold wf, Purge, lenCache in *. simpl.
    repeat split; [lia|constructor|lia].
  - unfold Resize. destruct (Z.leb_spec size 0); [exact Hw|]. cbv zeta.
    destruct Hw as (Hm & Hn & Hl).
    destruct (Z.leb_spec (lenCache (mkCache size (lruList c) (metricsCollector c)) - size) 0) as [Hev|Hev].
    + unfold wf, lenCache in *. simpl in *. repeat split; auto; lia.
    + rewrite LRUProofs.removeOldestN_firstn. unfold wf, lenCache in *. simpl in *.
      repeat split; [lia| |].
      * rewrite <- firstn_map. apply NoDup_firstn_gen, Hn.
      * rewrite length_firstn. lia.
  - destruct Hw as (Hm & Hn & Hl). unfold wf, cleanupTick, lenCache in *. simpl.
    repeat split; [lia|apply keys_unique_after_sweep, Hn|].
    pose proof (filter_length_le_gen (fun e => negb (expired now e)) (lruList c)). lia.
Qed.

(** X3: on a well-formed cache, a [get] of a key just added with
    [AddWithTTL] at time [now] returns the added value, unless the TTL
    is positive and [now + ttl] is before the time of the [get]. *)
Theorem AddWithTTL_then_get (c : LRUCache K V) (now now' : Z) (k : K) (v : V) (ttl : Z) (inc : bool) :
  wf c ->
  fst (get K_eq_dec now' k inc (AddWithTTL K_eq_dec now k v ttl c))
  = if (0 <? ttl) && (now + ttl <? now') then None else Some v.
Proof.
  intro Hw. destruct (AddWithTTL_front now k v ttl c Hw) as [rest Hr].
  unfold get. rewrite Hr, lookup_head. unfold expired, expiresAtOf. simpl.
  destruct (0 <? ttl); simpl; [destruct (now + ttl <? now')|]; reflexivity.
Qed.

(** X4: [AddWithTTL] on a cached key replaces its value and expiry and
    moves it to the front, with no eviction and the metrics untouched;
    on a new key below the bound it pushes the entry and reports the new
    amount; on a new key when the cache is full it pushes the entry,
    evicts the least recently used one and counts one eviction. *)
Theorem AddWithTTL_cases (c : LRUCache K V) (now : Z) (k : K) (v : V) (ttl : Z) :
  (forall e, lookup K_eq_dec k (lruList c) = Some e ->
     AddWithTTL K_eq_dec now k v ttl c
     = mkCache (maxEntries c) (mkEntry k v (expiresAtOf now ttl) :: removeKey K_eq_dec k (lruList c))
         (metricsCollector c))
  /\ (lookup K_eq_dec k (lruList c) = None -> lenCache c < maxEntries c ->
     AddWithTTL K_eq_dec now k v ttl c
     = mkCache (maxEntries c) (mkEntry k v (expiresAtOf now ttl) :: lruList c)
         (SetAmount (lenCache c + 1) (metricsCollector c)))
  /\ (forall l0 x0, lookup K_eq_dec k (lruList c) = None -> lruList c = l0 ++ [x0] ->
     maxEntries c <= lenCache c ->
     AddWithTTL K_eq_dec now k v ttl c
     = mkCache (maxEntries c) (mkEntry k v (expiresAtOf now ttl) :: l0)
         (AddEvictions 1 (metricsCollector c))).
Proof.
  unfold AddWithTTL. split; [intros e H; rewrite H; reflexivity|]. split.
  - intros H Hlt. rewrite H. apply (proj1 (addNew_spec k v _ c)), Hlt.
  - intros l0 x0 H Hl Hge. rewrite H. exact (proj2 (addNew_spec k v _ c) l0 x0 Hl Hge).
Qed.

(** X5: [GetOrAddWithTTL] returns the cached value with [exists = true]
    exactly as [Get] would; otherwise it returns the provided value with
    [exists = false], and the key then holds that value. *)
Theorem GetOrAddWithTTL_spec (c : LRUCache K V) (now : Z) (k : K) (p : V) (ttl : Z) :
  wf c ->
  match fst (get K_eq_dec now k true c) with
  | Some v => GetOrAddWithTTL K_eq_dec now k p ttl c = ((v, true), snd (get K_eq_dec now k true c))
  | None => fst (GetOrAddWithTTL K_eq_dec now k p ttl c) = (p, false)
            /\ fst (get K_eq_dec now k false (snd (GetOrAddWithTTL K_eq_dec now k p ttl c))) = Some p
  end.
Proof.
  intro Hw. pose proof (wf_get now k true c Hw) as W1. pose proof (get_miss_absent now k true c) as A1.
  unfold GetOrAddWithTTL. destruct (get K_eq_dec now k true c) as [[v|] c1]; simpl in *; [reflexivity|].
  split; [reflexivity|].
  destruct (addNew_front k p (expiresAtOf now ttl) c1 W1) as [rest [Hr _]].
  unfold get. rewrite Hr, lookup_head. unfold expired, expiresAtOf. simpl.
  destruct (Z.ltb_spec 0 ttl); simpl; [|reflexivity].
  replace (now + ttl <? now) with false by (symmetry; apply Z.ltb_ge; lia). reflexivity.
Qed.

(** X6: a [GetOrLoadWithTTL] counts exactly one hit (the value was
    cached) or one miss.  A cached value is returned with
    [exists = true].  Otherwise the loader runs: on an error the error
    is returned with the zero value and nothing is cached for the key;
    on success the loaded value is returned with [exists = false] and
    cached at the front with the loader's TTL, or the default TTL when
    the loader's is not positive. *)
Theorem GetOrLoadWithTTL_spec {E : Type} (c : LRUCache K V) (now defaultTTL : Z) (k : K)
  (loadValue : K -> V * Z * option E) :
  wf c ->
  let r := GetOrLoadWithTTL K_eq_dec now defaultTTL k loadValue c in
  let exists_ := snd (fst (fst r)) in
  m_hits (metricsCollector (snd r)) = m_hits (metricsCollector c) + (if exists_ then 1 else 0)
  /\ m_misses (metricsCollector (snd r)) = m_misses (metricsCollector c) + (if exists_ then 0 else 1)
  /\ (forall v, fst (get K_eq_dec now k false c) = Some v -> fst r = (Some v, true, None))
  /\ (fst (get K_eq_dec now k false c) = None ->
      match loadValue k with
      | (_, _, Some e) => fst r = (None, false, Some e) /\ lookup K_eq_dec k (lruList (snd r)) = None
      | (v, ttl, None) =>
          fst r = (Some v, false, None)
          /\ lookup K_eq_dec k (lruList (snd r))
             = Some (mkEntry k v (expiresAtOf now (if ttl <=? 0 then defaultTTL else ttl)))
      end).
Proof.
  intro Hw. cbv zeta. unfold GetOrLoadWithTTL.
  pose proof (get_quiet_hits_misses now k c) as [Hh Hm].
  pose proof (wf_get now k false c Hw) as W1. pose proof (get_miss_absent now k false c) as A1.
  destruct (get K_eq_dec now k false c) as [[v1|] c1]; simpl in *.
  - repeat split; [lia|lia| |]; [intros v Hv; injection Hv as <-; reflexivity|intro H; discriminate H].
  - specialize (A1 eq_refl). rewrite (get_absent now k false c1 A1).
    destruct (loadValue k) as [[v t] [e|]]; simpl.
    + repeat split; [lia|lia| |exact A1]. intros v' Hv'. discriminate Hv'.
    + set (c2 := mkCache (maxEntries c1) (lruList c1) (metricsCollector c1)).
      pose proof (AddWithTTL_hits_misses now k v (if t <=? 0 then defaultTTL else t) c2) as [Ah Am].
      destruct (AddWithTTL_front now k v (if t <=? 0 then defaultTTL else t) c2 (wf_metrics c1 _ W1))
        as [rest Hr].
      simpl. rewrite Ah, Am. simpl. rewrite Hr, lookup_head.
      repeat split; [lia|lia|]. intros v' Hv'. discriminate Hv'.
Qed.

(** X7: [Remove] reports whether the key was cached; afterwards the key
    is absent and every other key maps as before, and the reported
    amount is the new size; an absent key leaves the cache untouched. *)
Theorem Remove_spec (c : LRUCache K V) (k : K) :
  let r := Remove K_eq_dec k c in
  (fst r = true <-> lookup K_eq_dec k (lruList c) <> None)
  /\ lookup K_eq_dec k (lruList (snd r)) = None
  /\ (forall k', k' <> k -> lookup K_eq_dec k' (lruList (snd r)) = lookup K_eq_dec k' (lruList c))
  /\ (fst r = true -> m_amount (metricsCollector (snd r)) = Len (snd r)
                      /\ maxEntries (snd r) = maxEntries c)
  /\ (fst r = false -> snd r = c).
Proof.
  cbv zeta. unfold Remove.
  destruct (lookup K_eq_dec k (lruList c)) as [e|] eqn:El; simpl.
  - split; [split; [intros _; discriminate|reflexivity]|].
    split; [apply LRUProofs.lookup_removeKey|].
    split; [intros k' Hk'; apply lookup_removeKey_other, Hk'|].
    split; [intros _; split; reflexivity|intro H; discriminate H].
  - split; [split; [intro H; discriminate H|intro H; exfalso; apply H; reflexivity]|].
    split; [exact El|]. split; [intros; reflexivity|].
    split; [intro H; discriminate H|intros _; reflexivity].
Qed.

(** X8: every [Get] counts exactly one hit (when it returns a value) or
    one miss, and never counts an eviction. *)
Theorem Get_counts_one (c : LRUCache K V) (now : Z) (k : K) :
  let r := Get K_eq_dec now k c in
  m_hits (metricsCollector (snd r)) = m_hits (metricsCollector c) + (if fst r then 1 else 0)
  /\ m_misses (metricsCollector (snd r)) = m_misses (metricsCollector c) + (if fst r then 0 else 1)
  /\ m_evictions (metricsCollector (snd r)) = m_evictions (metricsCollector c).
Proof.
  cbv zeta. unfold Get, get.
  destruct (lookup K_eq_dec k (lruList c)) as [e|]; [destruct (expired now e)|]; simpl;
    repeat split; lia.
Qed.

End Api.

(** Concrete caches with [nat] keys and values: [cacheA] is full
    (bound 2, key 2 most recently used). *)
Definition cacheA : LRUCache nat nat :=
  mkCache 2 [LRUProofs.ent 2 20 None; LRUProofs.ent 1 10 None] LRUProofs.metrics0.

Definition cacheB : LRUCache nat nat :=
  mkCache 3 [LRUProofs.ent 2 20 None; LRUProofs.ent 1 10 (Some 5)] LRUProofs.metrics0.

Ltac wf_concrete :=
  unfold wf, lenCache; simpl; repeat split; try lia;
  repeat constructor; simpl; intuition discriminate.

Lemma NewWithOpts_validates_witness :
  NewWithOpts (K:=nat) (V:=nat) 2 LRUProofs.metrics0 0 = inr (mkCache 2 [] LRUProofs.metrics0, 0)
  /\ (wf (mkCache (K:=nat) (V:=nat) 2 [] LRUProofs.metrics0)
      /\ Len (mkCache (K:=nat) (V:=nat) 2 [] LRUProofs.metrics0) = 0
      /\ maxEntries (mkCache (K:=nat) (V:=nat) 2 [] LRUProofs.metrics0) = 2
      /\ metricsCollector (mkCache (K:=nat) (V:=nat) 2 [] LRUProofs.metrics0) = LRUProofs.metrics0
      /\ 0 = 0).
Proof.
  assert (H : NewWithOpts (K:=nat) (V:=nat) 2 LRUProofs.metrics0 0
              = inr (mkCache 2 [] LRUProofs.metrics0, 0)) by reflexivity.
  split; [exact H|].
  exact (proj2 (NewWithOpts_validates (K:=nat) (V:=nat) 2 LRUProofs.metrics0 0) _ _ H).
Defined.

Lemma wf_preserved_witness :
  wf cacheA /\ wf (snd (Resize 1 cacheA)) /\ wf (AddWithTTL Nat.eq_dec 0 3%nat 30%nat 0 cacheA).
Proof.
  assert (Hw : wf cacheA) by wf_concrete.
  split; [exact Hw|].
  destruct (wf_preserved (E:=unit) Nat.eq_dec cacheA 0 0 3%nat 30%nat 30%nat 0 1 true
              (fun k => (k, 0, None)) Hw) as (_ & H2 & _ & _ & _ & _ & H7 & _).
  split; [exact H7|exact H2].
Defined.

Lemma AddWithTTL_then_get_witness :
  wf cacheA
  /\ fst (get Nat.eq_dec 4 3%nat true (AddWithTTL Nat.eq_dec 0 3%nat 30%nat 5 cacheA)) = Some 30%nat
  /\ fst (get Nat.eq_dec 7 3%nat true (AddWithTTL Nat.eq_dec 0 3%nat 30%nat 5 cacheA)) = None.
Proof.
  assert (Hw : wf cacheA) by wf_concrete.
  split; [exact Hw|]. split.
  - exact (AddWithTTL_then_get Nat.eq_dec cacheA 0 4 3%nat 30%nat 5 true Hw).
  - exact (AddWithTTL_then_get Nat.eq_dec cacheA 0 7 3%nat 30%nat 5 true Hw).
Defined.

Lemma AddWithTTL_cases_witness :
  lookup Nat.eq_dec 3%nat (lruList cacheA) = None
  /\ lruList cacheA = [LRUProofs.ent 2 20 None] ++ [LRUProofs.ent 1 10 None]
  /\ maxEntries cacheA <= lenCache cacheA
  /\ AddWithTTL Nat.eq_dec 0 3%nat 30%nat 0 cacheA
     = mkCache 2 [mkEntry 3%nat 30%nat None; LRUProofs.ent 2 20 None]
         (AddEvictions 1 LRUProofs.metrics0).
Proof.
  assert (H1 : lookup Nat.eq_dec 3%nat (lruList cacheA) = None) by reflexivity.
  assert (H2 : lruList cacheA = [LRUProofs.ent 2 20 None] ++ [LRUProofs.ent 1 10 None]) by reflexivity.
  assert (H3 : maxEntries cacheA <= lenCache cacheA) by (vm_compute; discriminate).
  split; [exact H1|]. split; [exact H2|]. split; [exact H3|].
  exact (proj2 (proj2 (AddWithTTL_cases Nat.eq_dec cacheA 0 3%nat 30%nat 0)) _ _ H1 H2 H3).
Defined.

Lemma GetOrAddWithTTL_spec_witness :
  wf cacheB
  /\ fst (GetOrAddWithTTL Nat.eq_dec 9 1%nat 11%nat 0 cacheB) = (11%nat, false)
  /\ fst (get Nat.eq_dec 9 1%nat false (snd (GetOrAddWithTTL Nat.eq_dec 9 1%nat 11%nat 0 cacheB)))
     = Some 11%nat.
Proof.
  assert (Hw : wf cacheB) by wf_concrete.
  split; [exact Hw|].
  exact (GetOrAddWithTTL_spec Nat.eq_dec cacheB 9 1%nat 11%nat 0 Hw).
Defined.

(** A loader that fails for key 0 and loads [10 * k] with TTL 0
    otherwise. *)
Definition loader (k : nat) : nat * Z * option string :=
  match k with
  | O => (0%nat, 0, Some "unavailable"%string)
  | _ => ((10 * k)%nat, 0, None)
  end.

Lemma GetOrLoadWithTTL_spec_witness :
  wf cacheB
  /\ fst (GetOrLoadWithTTL Nat.eq_dec 9 100 0%nat loader cacheB) = (None, false, Some "unavailable"%string)
  /\ lookup Nat.eq_dec 0%nat (lruList (snd (GetOrLoadWithTTL Nat.eq_dec 9 100 0%nat loader cacheB))) = None.
Proof.
  assert (Hw : wf cacheB) by wf_concrete.
  split; [exact Hw|].
  destruct (GetOrLoadWithTTL_spec Nat.eq_dec cacheB 9 100 0%nat loader Hw) as (_ & _ & _ & H).
  exact (H eq_refl).
Defined.

Lemma Remove_spec_witness :
  fst (Remove Nat.eq_dec 1%nat cacheA) = true
  /\ m_amount (metricsCollector (snd (Remove Nat.eq_dec 1%nat cacheA))) = Len (snd (Remove Nat.eq_dec 1%nat cacheA))
  /\ lookup Nat.eq_dec 2%nat (lruList (snd (Remove Nat.eq_dec 1%nat cacheA)))
     = lookup Nat.eq_dec 2%nat (lruList cacheA).
Proof.
  destruct (Remove_spec Nat.eq_dec cacheA 1%nat) as (_ & _ & H3 & H4 & _).
  assert (Ht : fst (Remove Nat.eq_dec 1%nat cacheA) = true) by reflexivity.
  split; [exact Ht|]. split; [exact (proj1 (H4 Ht))|]. apply H3. discriminate.
Defined.

End LRUApiProofs.

(* ------------------------------------------------------------------ *)
(** ** Rate limiting: handler invocations, early exits, construction *)

Module RateLimitEngineProofs.
Import RateLimit.

(** How an action changes the number of user-handler invocations. *)
Definition keepsCalls {A} (m : M A) : Prop :=
  forall s, st_handlerCalls (snd (m s)) = st_handlerCalls s.

Definition callsOnce {A} (m : M A) : Prop :=
  forall s, st_handlerCalls (snd (m s)) = S (st_handlerCalls s).

(** At most one invocation, and only with an outcome outside [blk]. *)
Definition amo {A} (blk : A -> Prop) (m : M A) : Prop :=
  forall s, st_handlerCalls (snd (m s)) = st_handlerCalls s
            \/ (st_handlerCalls (snd (m s)) = S (st_handlerCalls s) /\ ~ blk (fst (m s))).

Lemma keep_bind {A B} (m : M A) (f : A -> M B) :
  keepsCalls m -> (forall a, keepsCalls (f a)) -> keepsCalls (bind m f).
Proof.
  intros Hm Hf s. unfold bind. pose proof (Hm s) as H. destruct (m s) as [a s']. simpl in H.
  rewrite Hf. exact H.
Qed.

Lemma keep_ret {A} (a : A) : keepsCalls (ret a).
Proof. intro s. reflexivity. Qed.

Lemma keep_emit (ev : event) : keepsCalls (emit ev).
Proof. intro s. reflexivity. Qed.

Lemma keep_setSlots (ch : string) (n : nat) : keepsCalls (setSlots ch n).
Proof. intro s. reflexivity. Qed.

Lemma keep_getSlots (ch : string) : keepsCalls (getSlots ch).
Proof. intro s. reflexivity. Qed.

Lemma keep_Allow (h : rateLimitHandler) (key : string) : keepsCalls (Allow h key).
Proof. intro s. reflexivity. Qed.

Ltac keep :=
  repeat match goal with
  | |- keepsCalls (bind _ _) => apply keep_bind; [|intro]
  | |- keepsCalls (ret _) => apply keep_ret
  | |- keepsCalls (emit _) => apply keep_emit
  | |- keepsCalls (setSlots _ _) => apply keep_setSlots
  | |- keepsCalls (getSlots _) => apply keep_getSlots
  | |- keepsCalls (Allow _ _) => apply keep_Allow
  | |- keepsCalls (match ?x with _ => _ end) => destruct x
  | |- keepsCalls (if ?b then _ else _) => destruct b
  | |- keepsCalls (freeBacklogSlotIfNeeded _ _) => unfold freeBacklogSlotIfNeeded
  | |- keepsCalls (callOnReject _ _ _) => unfold callOnReject
  | |- keepsCalls (callOnError _ _ _ _) => unfold callOnError
  | |- keepsCalls (Done_of _) => unfold Done_of
  end.

Lemma amo_keep {A} (blk : A -> Prop) (m : M A) : keepsCalls m -> amo blk m.
Proof. intros H s. left. apply H. Qed.

Lemma amo_bind_keep {A B} (blk : B -> Prop) (m : M A) (f : A -> M B) :
  keepsCalls m -> (forall a, amo blk (f a)) -> amo blk (bind m f).
Proof.
  intros Hm Hf s. unfold bind. pose proof (Hm s) as H. destruct (m s) as [a s']. simpl in H.
  rewrite <- H. apply Hf.
Qed.

Lemma amo_bind_amo {A B} (blkA : A -> Prop) (blkB : B -> Prop) (m : M A) (f : A -> M B) :
  amo blkA m -> (forall a, amo blkB (f a)) ->
  (forall a, ~ blkA a -> keepsCalls (f a) /\ forall s, ~ blkB (fst (f a s))) ->
  amo blkB (bind m f).
Proof.
  intros Hm Hf Hn s. unfold bind. pose proof (Hm s) as H. destruct (m s) as [a s']. simpl in H.
  destruct H as [H|[H Hb]].
  - rewrite <- H. apply Hf.
  - right. destruct (Hn a Hb) as [Hk Hnb]. rewrite Hk, H. split; [reflexivity|apply Hnb].
Qed.

Lemma amo_bind_once {A B} (blk : B -> Prop) (m : M A) (f : A -> M B) :
  callsOnce m -> (forall a, keepsCalls (f a) /\ forall s, ~ blk (fst (f a s))) ->
  amo blk (bind m f).
Proof.
  intros Hm Hf s. right. unfold bind. pose proof (Hm s) as H. destruct (m s) as [a s']. simpl in H.
  destruct (Hf a) as [Hk Hnb]. rewrite Hk, H. split; [reflexivity|apply Hnb].
Qed.

Lemma amo_Done_of_once (m : M (option err)) :
  callsOnce m -> amo (fun r => r = Blocked) (Done_of m).
Proof.
  intro H. unfold Done_of. apply amo_bind_once; [exact H|].
  intro e. split; [apply keep_ret|intros s Hs; discriminate Hs].
Qed.

Section Handler.

Variable handler : M (option err).
Hypothesis handler_once : callsOnce handler.

Lemma backlogLoop_amo (h : rateLimitHandler) (ctx : Ctx) (key ch : string) :
  forall wakes b ra,
    amo (fun rb : result * bool => fst rb = Blocked) (backlogLoop h ctx key ch handler wakes b ra).
Proof.
  induction wakes as [|w rest IH]; intros b ra; simpl.
  - apply amo_keep. keep.
  - destruct w.
    + apply amo_bind_keep; [apply keep_Allow|]. intro r.
      destruct (allowErr r) as [e|]; [apply amo_keep; keep|].
      destruct (allowed r); [|apply IH].
      apply amo_bind_keep; [keep|]. intro b'.
      apply amo_bind_once; [exact handler_once|].
      intro e. split; [apply keep_ret|intros s Hs; discriminate Hs].
    + apply amo_keep. keep.
    + apply amo_keep. keep.
Qed.

Lemma handleBacklogProcessing_amo (h : rateLimitHandler) (ctx : Ctx) (key : string) (ra : Z)
  (gbs : string -> string) (wakes : list wake) :
  amo (fun r => r = Blocked) (handleBacklogProcessing h ctx key ra gbs wakes handler).
Proof.
  unfold handleBacklogProcessing. apply amo_bind_keep; [apply keep_getSlots|]. intro n.
  destruct (Nat.ltb n (backlogCap h)); [|apply amo_keep; keep].
  apply amo_bind_keep; [apply keep_setSlots|]. intros _.
  apply (amo_bind_amo (fun rb : result * bool => fst rb = Blocked)); [apply backlogLoop_amo| |].
  - intros [r b]. simpl. destruct r; [apply amo_keep; keep|apply amo_keep; keep].
  - intros [r b] Hr. simpl in Hr. destruct r; [contradiction Hr; reflexivity|]. simpl.
    split; [keep|]. intro s. unfold bind, ret. destruct (freeBacklogSlotIfNeeded _ _ s). simpl.
    discriminate.
Qed.

Lemma handle_amo (h : rateLimitHandler) (ctx : Ctx) (fullMethod : string) (wakes : list wake) :
  amo (fun r => r = Blocked) (handle h ctx fullMethod wakes handler).
Proof.
  assert (HK : forall key, amo (fun r => r = Blocked) (handleKey h ctx key wakes handler)).
  { intro key. unfold handleKey. apply amo_bind_keep; [apply keep_Allow|]. intro r.
    destruct (allowErr r) as [e|]; [apply amo_keep; keep|].
    destruct (allowed r); [apply amo_Done_of_once, handler_once|].
    destruct (dryRun h).
    - apply amo_bind_keep; [keep|]. intros _. apply amo_Done_of_once, handler_once.
    - destruct (getBacklogSlots h) as [gbs|]; [apply handleBacklogProcessing_amo|apply amo_keep; keep]. }
  unfold handle. destruct (getKey h) as [gk|]; [|apply HK].
  destruct (gk fullMethod) as [[key bypass] e]. destruct e as [e|]; [apply amo_keep; keep|].
  destruct bypass; [apply amo_Done_of_once, handler_once|apply HK].
Qed.

End Handler.

Lemma streamHandler_once (sh : nat -> option nat * option err) :
  callsOnce (x <- invokeUnary sh ;; ret (snd x)).
Proof. intro s. reflexivity. Qed.

(** X9: the stream interceptor runs the user's handler at most once per
    call, and not at all while the call is still waiting in the
    backlog. *)
Theorem RateLimitStream_handler_at_most_once (h : rateLimitHandler) (ctx : Ctx) (fullMethod : string)
  (wakes : list wake) (sh : nat -> option nat * option err) (s : St) :
  let r := RateLimitStreamInterceptor h ctx fullMethod wakes sh s in
  (st_handlerCalls (snd r) = st_handlerCalls s \/ st_handlerCalls (snd r) = S (st_handlerCalls s))
  /\ (fst r = Blocked -> st_handlerCalls (snd r) = st_handlerCalls s).
Proof.
  cbv zeta. unfold RateLimitStreamInterceptor.
  destruct (handle_amo _ (streamHandler_once sh) h ctx fullMethod wakes s) as [H|[H Hb]].
  - split; [left; exact H|intros _; exact H].
  - split; [right; exact H|intro HB; contradiction].
Qed.

(** The key [handleKey] receives: the empty key without [getKey],
    otherwise the one [getKey] resolved without error and without
    bypass. *)
Definition resolvedKey (h : rateLimitHandler) (fullMethod key : string) : Prop :=
  match getKey h with
  | None => key = EmptyString
  | Some gk => gk fullMethod = (key, false, None)
  end.

Lemma handle_resolved (h : rateLimitHandler) (ctx : Ctx) (fullMethod key : string)
  (wakes : list wake) (handler : M (option err)) :
  resolvedKey h fullMethod key ->
  handle h ctx fullMethod wakes handler = handleKey h ctx key wakes handler.
Proof.
  unfold resolvedKey, handle. destruct (getKey h) as [gk|].
  - intro Hk. rewrite Hk. reflexivity.
  - intro Hk. subst key. reflexivity.
Qed.

(** X10: the exits of [handle] before the backlog: a key error goes to
    [onError] (wrapped, retry-after 0) without consulting the limiter;
    a bypassed key runs the handler without consulting the limiter; a
    limiter error goes to [onError] with retry-after 0; a rejection with
    neither dry run nor backlog goes to [onReject] with the limiter's
    retry-after; an admitted call runs the handler after exactly one
    limiter call. *)
Theorem handle_early_exits (h : rateLimitHandler) (ctx : Ctx) (fullMethod : string)
  (wakes : list wake) (handler : M (option err)) (s : St) :
  (forall gk key bypass e,
     getKey h = Some gk -> gk fullMethod = (key, bypass, Some e) ->
     let p := makeParams key false 0 in
     let e' := ErrWrap "get key for rate limit" e in
     handle h ctx fullMethod wakes handler s
     = (Done (onError h p e' (ctx_logger ctx)),
        mkSt (st_handlerCalls s) (st_allowCalls s) (st_trace s ++ [EvOnError p e']) (st_slots s)))
  /\ (forall gk key,
        getKey h = Some gk -> gk fullMethod = (key, true, None) ->
        handle h ctx fullMethod wakes handler s = Done_of handler s)
  /\ (forall key e,
        resolvedKey h fullMethod key -> allowErr (limiter h (st_allowCalls s) key) = Some e ->
        let p := makeParams key false 0 in
        let e' := ErrWrap "rate limit" e in
        handle h ctx fullMethod wakes handler s
        = (Done (onError h p e' (ctx_logger ctx)),
           mkSt (st_handlerCalls s) (S (st_allowCalls s)) (st_trace s ++ [EvOnError p e']) (st_slots s)))
  /\ (forall key,
        resolvedKey h fullMethod key ->
        let r := limiter h (st_allowCalls s) key in
        allowErr r = None -> allowed r = false -> dryRun h = false -> getBacklogSlots h = None ->
        let p := makeParams key false (allowRetryAfter r) in
        handle h ctx fullMethod wakes handler s
        = (Done (onReject h p (ctx_logger ctx)),
           mkSt (st_handlerCalls s) (S (st_allowCalls s)) (st_trace s ++ [EvOnReject p]) (st_slots s)))
  /\ (forall key,
        resolvedKey h fullMethod key ->
        let r := limiter h (st_allowCalls s) key in
        allowErr r = None -> allowed r = true ->
        handle h ctx fullMethod wakes handler s
        = Done_of handler (mkSt (st_handlerCalls s) (S (st_allowCalls s)) (st_trace s) (st_slots s))).
Proof.
  split; [|split; [|split; [|split]]].
  - intros gk key bypass e Hg Hk. cbv zeta. unfold handle. rewrite Hg, Hk. reflexivity.
  - intros gk key Hg Hk. unfold handle. rewrite Hg, Hk. reflexivity.
  - intros key e Hk He. cbv zeta. rewrite (handle_resolved _ _ _ _ _ _ Hk).
    unfold handleKey, bind at 1, Allow. rewrite He. reflexivity.
  - intros key Hk. cbv zeta. intros He Ha Hd Hb. rewrite (handle_resolved _ _ _ _ _ _ Hk).
    unfold handleKey, bind at 1, Allow. rewrite He, Ha, Hd, Hb. reflexivity.
  - intros key Hk. cbv zeta. intros He Ha. rewrite (handle_resolved _ _ _ _ _ _ Hk).
    unfold handleKey, bind at 1, Allow. rewrite He, Ha. reflexivity.
Qed.

(** X11: [newRateLimitHandler] fails on a negative backlog limit, on an
    algorithm other than leaky bucket and sliding window, and, when
    keys are extracted and a backlog is used, on a negative [maxKeys]
    (the channel LRU refuses it) even once the limiter was built. *)
Theorem newRateLimitHandler_errors
  (newLimiter : Z -> Rate -> Z -> Z -> string + (nat -> string -> allowResult))
  (maxRate : Rate) (options : list RateLimitOption) :
  let o := applyOptions options in
  (o_backlogLimit o < 0 ->
     newRateLimitHandler newLimiter maxRate options = inl "backlog limit should not be negative"%string)
  /\ (0 <= o_backlogLimit o -> o_alg o <> RateLimitAlgLeakyBucket -> o_alg o <> RateLimitAlgSlidingWindow ->
        newRateLimitHandler newLimiter maxRate options = inl "unknown rate limit algorithm"%string)
  /\ (forall gk l,
        0 < o_backlogLimit o -> o_dryRun o = false -> o_getKey o = Some gk -> o_maxKeys o < 0 ->
        newLimiter (o_alg o) maxRate (o_maxBurst o) (o_maxKeys o) = inr l ->
        (o_alg o = RateLimitAlgLeakyBucket \/ o_alg o = RateLimitAlgSlidingWindow) ->
        exists e, newRateLimitHandler newLimiter maxRate options = inl e).
Proof.
  cbv zeta. unfold newRateLimitHandler. set (o := applyOptions options).
  split; [|split].
  - intro H. apply Z.ltb_lt in H. rewrite H. reflexivity.
  - intros H H1 H2. replace (o_backlogLimit o <? 0) with false by (symmetry; apply Z.ltb_ge; lia).
    replace (o_alg o =? RateLimitAlgLeakyBucket) with false by (symmetry; apply Z.eqb_neq; exact H1).
    replace (o_alg o =? RateLimitAlgSlidingWindow) with false by (symmetry; apply Z.eqb_neq; exact H2).
    reflexivity.
  - intros gk l Hb Hd Hg Hm Hl Ha.
    replace (o_backlogLimit o <? 0) with false by (symmetry; apply Z.ltb_ge; lia).
    rewrite Hd, Hg. replace (o_maxKeys o =? 0) with false by (symmetry; apply Z.eqb_neq; lia).
    replace ((o_alg o =? RateLimitAlgLeakyBucket) || (o_alg o =? RateLimitAlgSlidingWindow)) with true
      by (destruct Ha as [Ha|Ha]; rewrite Ha; reflexivity).
    rewrite Hl. unfold makeGrpcRateLimitBacklogSlotsProvider.
    replace (o_backlogLimit o =? 0) with false by (symmetry; apply Z.eqb_neq; lia).
    replace (o_maxKeys o =? 0) with false by (symmetry; apply Z.eqb_neq; lia).
    replace (o_maxKeys o <=? 0) with true by (symmetry; apply Z.leb_le; lia).
    eexists. reflexivity.
Qed.

(** X12: an engine built by [newRateLimitHandler] without dry run and
    with a positive backlog limit has backlog channels of that
    capacity; without [getKey] every key maps to the same channel, with
    [getKey] every key has its own; the policies, dry-run flag, key
    extractor and backlog timeout are those of the options, and the
    limiter is built with [maxKeys] 0 without [getKey] and with
    [DefaultRateLimitMaxKeys] for an unset [maxKeys] otherwise. *)
Theorem newRateLimitHandler_backlog_channels
  (newLimiter : Z -> Rate -> Z -> Z -> string + (nat -> string -> allowResult))
  (maxRate : Rate) (options : list RateLimitOption) (h : rateLimitHandler) :
  newRateLimitHandler newLimiter maxRate options = inr h ->
  let o := applyOptions options in
  let maxKeys := match o_getKey o with
                 | None => 0
                 | Some _ => if o_maxKeys o =? 0 then DefaultRateLimitMaxKeys else o_maxKeys o
                 end in
  newLimiter (o_alg o) maxRate (o_maxBurst o) maxKeys = inr (limiter h)
  /\ getKey h = o_getKey o /\ dryRun h = o_dryRun o /\ backlogTimeout h = o_backlogTimeout o
  /\ onReject h = o_onReject o /\ onError h = o_onError o
  /\ (o_dryRun o = false -> 0 < o_backlogLimit o ->
        backlogCap h = Z.to_nat (o_backlogLimit o)
        /\ exists gbs, getBacklogSlots h = Some gbs
             /\ (o_getKey o = None -> forall k1 k2, gbs k1 = gbs k2)
             /\ (o_getKey o <> None -> forall k1 k2, gbs k1 = gbs k2 -> k1 = k2)).
Proof.
  unfold newRateLimitHandler. cbv zeta. set (o := applyOptions options).
  destruct (o_backlogLimit o <? 0) eqn:Hneg; [discriminate|].
  set (mk := match o_getKey o with
             | None => 0
             | Some _ => if o_maxKeys o =? 0 then DefaultRateLimitMaxKeys else o_maxKeys o
             end).
  destruct ((o_alg o =? RateLimitAlgLeakyBucket) || (o_alg o =? RateLimitAlgSlidingWindow)); [|discriminate].
  destruct (newLimiter (o_alg o) maxRate (o_maxBurst o) mk) as [e|l] eqn:Hl; [discriminate|].
  destruct (makeGrpcRateLimitBacklogSlotsProvider (if o_dryRun o then 0 else o_backlogLimit o) mk)
    as [e|gbs] eqn:Hp; [discriminate|].
  intro H. injection H as <-. simpl.
  split; [reflexivity|]. do 5 (split; [reflexivity|]).
  intros Hd Hb. rewrite Hd in Hp |- *. split; [reflexivity|].
  unfold makeGrpcRateLimitBacklogSlotsProvider in Hp.
  replace (o_backlogLimit o =? 0) with false in Hp by (symmetry; apply Z.eqb_neq; lia).
  subst mk. destruct (o_getKey o) as [gk|].
  - destruct (o_maxKeys o =? 0) eqn:Hm.
    + unfold DefaultRateLimitMaxKeys in Hp. simpl in Hp. injection Hp as <-.
      eexists; split; [reflexivity|]. split; [discriminate|]. intros _ k1 k2 E; exact E.
    + destruct (o_maxKeys o =? 0) eqn:Hm'; [discriminate|].
      destruct (o_maxKeys o <=? 0); [discriminate|]. injection Hp as <-.
      eexists; split; [reflexivity|]. split; [discriminate|]. intros _ k1 k2 E; exact E.
  - simpl in Hp. injection Hp as <-.
    eexists; split; [reflexivity|]. split; [intros _ k1 k2; reflexivity|]. intro C; contradiction C; reflexivity.
Qed.

Definition handlerRejectAll : rateLimitHandler :=
  mkHandler RateLimitProofs.rejectAll None None 0 DefaultRateLimitBacklogTimeout false
    DefaultRateLimitOnReject DefaultRateLimitOnError.

Lemma handle_early_exits_witness :
  handle handlerRejectAll RateLimitProofs.ctxWithLogger "/svc/Method" [] RateLimitProofs.oneHandlerCall RateLimitProofs.st0
  = (Done (DefaultRateLimitOnReject (makeParams EmptyString false 1000000000) true),
     mkSt 0 1 ([] ++ [EvOnReject (makeParams EmptyString false 1000000000)]) (st_slots RateLimitProofs.st0)).
Proof.
  exact (proj1 (proj2 (proj2 (proj2 (handle_early_exits handlerRejectAll RateLimitProofs.ctxWithLogger "/svc/Method"
           [] RateLimitProofs.oneHandlerCall RateLimitProofs.st0)))) EmptyString eq_refl eq_refl eq_refl eq_refl eq_refl).
Defined.

(** A key extractor that rate-limits per method and never bypasses. *)
Definition keyByMethod (fullMethod : string) : string * bool * option err :=
  (fullMethod, false, None).

Lemma newRateLimitHandler_errors_witness :
  newRateLimitHandler RateLimitProofs.newRejectAll (mkRate 1 1000000000) [WithRateLimitBacklogLimit (-1)]
    = inl "backlog limit should not be negative"%string
  /\ newRateLimitHandler RateLimitProofs.newRejectAll (mkRate 1 1000000000) [WithRateLimitAlg 7]
    = inl "unknown rate limit algorithm"%string
  /\ exists e, newRateLimitHandler RateLimitProofs.newRejectAll (mkRate 1 1000000000)
                 [WithRateLimitGetKey keyByMethod; WithRateLimitBacklogLimit 3; WithRateLimitMaxKeys (-5)]
               = inl e.
Proof.
  split; [|split].
  - apply (newRateLimitHandler_errors RateLimitProofs.newRejectAll (mkRate 1 1000000000) [WithRateLimitBacklogLimit (-1)]).
    vm_compute. reflexivity.
  - apply (newRateLimitHandler_errors RateLimitProofs.newRejectAll (mkRate 1 1000000000) [WithRateLimitAlg 7]);
      vm_compute; congruence.
  - apply (proj2 (proj2 (newRateLimitHandler_errors RateLimitProofs.newRejectAll (mkRate 1 1000000000)
             [WithRateLimitGetKey keyByMethod; WithRateLimitBacklogLimit 3; WithRateLimitMaxKeys (-5)]))
             keyByMethod RateLimitProofs.rejectAll); vm_compute; try reflexivity; try left; reflexivity.
Defined.

Lemma newRateLimitHandler_backlog_channels_witness :
  match newRateLimitHandler RateLimitProofs.newRejectAll (mkRate 1 1000000000)
          [WithRateLimitGetKey keyByMethod; WithRateLimitBacklogLimit 2] with
  | inl _ => False
  | inr h => backlogCap h = 2%nat
             /\ exists gbs, getBacklogSlots h = Some gbs /\ gbs "/a/B"%string <> gbs "/a/C"%string
  end.
Proof.
  pose proof (newRateLimitHandler_backlog_channels RateLimitProofs.newRejectAll (mkRate 1 1000000000)
                [WithRateLimitGetKey keyByMethod; WithRateLimitBacklogLimit 2]) as T.
  destruct (newRateLimitHandler RateLimitProofs.newRejectAll (mkRate 1 1000000000)
              [WithRateLimitGetKey keyByMethod; WithRateLimitBacklogLimit 2]) as [e|h] eqn:E.
  - discriminate.
  - destruct (T h eq_refl) as [_ [_ [_ [_ [_ [_ H]]]]]].
    destruct (H eq_refl eq_refl) as [Hc [gbs [Hg [_ Hinj]]]].
    split; [exact Hc|]. exists gbs. split; [exact Hg|].
    intro Heq. apply Hinj in Heq; [discriminate Heq|discriminate].
Defined.

End RateLimitEngineProofs.

(* ------------------------------------------------------------------ *)
(** ** Logging: method-name split and the finish entry's fields *)

Module LoggingExtraProofs.
Import Logging.

Lemma length_app (s t : string) : String.length (s ++ t) = (String.length s + String.length t)%nat.
Proof. induction s as [|a s IH]; simpl; congruence. Qed.

Lemma substring_full (t : string) : substring 0 (String.length t) t = t.
Proof. induction t as [|a t IH]; simpl; congruence. Qed.

Lemma substring_app_l (s t : string) : substring 0 (String.length s) (s ++ t) = s.
Proof.
  induction s as [|a s IH]; simpl.
  - destruct t; reflexivity.
  - congruence.
Qed.

Lemma substring_app_r (s t : string) : substring (String.length s) (String.length t) (s ++ t) = t.
Proof. induction s as [|a s IH]; simpl; [apply substring_full|exact IH]. Qed.

Lemma Index_app_none (s t : string) (c : ascii) :
  Index s c = None -> Index (s ++ t) c = option_map (Nat.add (String.length s)) (Index t c).
Proof.
  induction s as [|a s IH]; simpl; intro H.
  - destruct (Index t c); reflexivity.
  - destruct (Ascii.eqb a c); [discriminate|].
    destruct (Index s c); [discriminate|]. rewrite IH by reflexivity.
    destruct (Index t c); reflexivity.
Qed.

Lemma prefix_slash (a : ascii) (r : string) : String.prefix "/" (String a r) = Ascii.eqb a "/".
Proof.
  destruct (Ascii.eqb_spec a "/") as [->|Hn].
  - destruct r; reflexivity.
  - cbn [String.prefix]. destruct (ascii_dec "/" a) as [E|E]; [congruence|reflexivity].
Qed.

Lemma TrimPrefix_slash (r : string) : TrimPrefix (String "/" r) "/" = r.
Proof.
  unfold TrimPrefix. rewrite prefix_slash, Ascii.eqb_refl.
  cbn [String.length substring]. rewrite Nat.sub_succ, Nat.sub_0_r. apply substring_full.
Qed.

Lemma TrimPrefix_no_slash (s : string) : Index s "/"%char = None -> TrimPrefix s "/" = s.
Proof.
  destruct s as [|a r]; [reflexivity|]. cbn [Index]. intro H.
  destruct (Ascii.eqb a "/") eqn:E; [discriminate|].
  unfold TrimPrefix. rewrite prefix_slash, E. reflexivity.
Qed.

Lemma string_app_assoc (a b c : string) : ((a ++ b) ++ c)%string = (a ++ (b ++ c))%string.
Proof. induction a as [|x a IH]; simpl; congruence. Qed.

Lemma split_core (svc m : string) :
  Index svc "/"%char = None ->
  (match Index (svc ++ String "/" m) "/"%char with
   | Some i => (substring 0 i (svc ++ String "/" m),
                substring (S i) (String.length (svc ++ String "/" m) - S i) (svc ++ String "/" m))
   | None => ("unknown"%string, "unknown"%string)
   end) = (svc, m).
Proof.
  intro H. rewrite (Index_app_none _ _ _ H). simpl. rewrite Nat.add_0_r.
  rewrite substring_app_l. f_equal.
  rewrite length_app. simpl.
  replace (String.length svc + S (String.length m) - S (String.length svc))%nat
    with (String.length m) by lia.
  replace (svc ++ String "/" m)%string with ((svc ++ "/") ++ m)%string
    by (rewrite string_app_assoc; reflexivity).
  replace (S (String.length svc)) with (String.length (svc ++ "/")%string)
    by (rewrite length_app; simpl; lia).
  apply substring_app_r.
Qed.

(** X13: [splitFullMethodName] splits ["/service/method"] into the
    service and the method whenever the service contains no ['/'] (the
    method may contain more), the leading ['/'] being optional for a
    non-empty service; a name with no ['/'] besides a leading one gives
    [("unknown", "unknown")]. *)
Theorem splitFullMethodName_spec (svc m : string) :
  Index svc "/"%char = None ->
  splitFullMethodName ("/" ++ svc ++ "/" ++ m) = (svc, m)
  /\ (svc <> EmptyString -> splitFullMethodName (svc ++ "/" ++ m) = (svc, m))
  /\ splitFullMethodName svc = ("unknown"%string, "unknown"%string)
  /\ splitFullMethodName ("/" ++ svc) = ("unknown"%string, "unknown"%string).
Proof.
  intro H. split; [|split; [|split]].
  - unfold splitFullMethodName. simpl (("/" ++ _)%string). rewrite TrimPrefix_slash.
    apply split_core, H.
  - intro Hne. unfold splitFullMethodName. simpl (("/" ++ _)%string).
    assert (Hn : Index (svc ++ String "/" m) "/"%char <> None).
    { rewrite (Index_app_none _ _ _ H). simpl. destruct (Ascii.eqb "/" "/"); discriminate. }
    destruct svc as [|a r]; [contradiction Hne; reflexivity|].
    assert (Ha : Ascii.eqb a "/" = false).
    { cbn [Index] in H. destruct (Ascii.eqb a "/"); [discriminate|reflexivity]. }
    assert (HT : TrimPrefix (String a r ++ String "/" m) "/" = (String a r ++ String "/" m)%string).
    { change (String a r ++ String "/" m)%string with (String a (r ++ String "/" m)).
      unfold TrimPrefix. rewrite prefix_slash, Ha. reflexivity. }
    rewrite HT. apply split_core, H.
  - unfold splitFullMethodName. rewrite (TrimPrefix_no_slash _ H), H. reflexivity.
  - unfold splitFullMethodName. simpl (("/" ++ _)%string). rewrite TrimPrefix_slash, H. reflexivity.
Qed.

Lemma splitFullMethodName_spec_witness :
  Index "svc.v1.Service" "/"%char = None
  /\ splitFullMethodName ("/" ++ "svc.v1.Service" ++ "/" ++ "Get/Item")
     = ("svc.v1.Service"%string, "Get/Item"%string).
Proof.
  split; [reflexivity|].
  exact (proj1 (splitFullMethodName_spec "svc.v1.Service" "Get/Item" eq_refl)).
Defined.

(** X14: when [logCallCompletion] logs (method not excluded, or a
    non-OK code), it emits one finish entry whose fields start with the
    common fields and carry the status code and the duration in whole
    milliseconds; provided the incoming fields have no such keys, the
    entry has a [grpc_error] field exactly for a failed call (with that
    error) and a [slow_request] field exactly when the duration reaches
    the slow-call threshold. *)
Theorem logCallCompletion_fields (logFields lpFields : list field) (duration : Z)
  (e : option err) (opts : loggingOptions) (fullMethod : string) :
  (isLoggingDisabled fullMethod (excludedMethods opts) = false \/ statusCode e <> OK) ->
  ~ In "grpc_error"%string (map fst (logFields ++ lpFields)) ->
  ~ In "slow_request"%string (map fst (logFields ++ lpFields)) ->
  exists fields,
    logCallCompletion logFields lpFields duration e opts fullMethod
      = [LogInfo (MsgFinished duration) fields]
    /\ firstn (List.length logFields) fields = logFields
    /\ In ("grpc_code"%string, FCode (statusCode e)) fields
    /\ In ("duration_ms"%string, FInt (Z.quot duration 1000000)) fields
    /\ (forall v, In ("grpc_error"%string, v) fields <-> exists e', e = Some e' /\ v = FErr e')
    /\ ((exists v, In ("slow_request"%string, v) fields) <-> slowCallThreshold opts <= duration).
Proof.
  intros Hlog Herr Hslow.
  assert (Hcond : negb (isLoggingDisabled fullMethod (excludedMethods opts))
                  || negb (code_eqb (statusCode e) OK) = true).
  { destruct Hlog as [H|H]; [rewrite H; reflexivity|].
    destruct (code_eqb (statusCode e) OK) eqn:Ec; [|apply orb_true_r].
    destruct (statusCode e); try discriminate Ec; contradiction H; reflexivity. }
  unfold logCallCompletion. cbv zeta. rewrite Hcond.
  eexists. split; [reflexivity|].
  assert (Hin : forall k v (l : list field), In (k, v) l -> In k (map fst l))
    by (intros k v l Hl; apply (in_map fst) in Hl; exact Hl).
  rewrite map_app in Herr, Hslow.
  split; [|split; [|split; [|split]]].
  - rewrite <- !app_assoc. rewrite firstn_app, Nat.sub_diag, firstn_O, app_nil_r.
    apply firstn_all.
  - apply in_or_app. left. apply in_or_app. right. left. reflexivity.
  - apply in_or_app. left. apply in_or_app. right. right. left. reflexivity.
  - intro v. split.
    + intro H. apply in_app_or in H as [H|H].
      * apply in_app_or in H as [H|H].
        { contradiction Herr. apply in_or_app. left. exact (Hin _ _ _ H). }
        destruct H as [H|[H|H]]; try discriminate H.
        destruct e as [e'|]; [|contradiction H].
        destruct H as [H|[]]. injection H as <-. exists e'. split; reflexivity.
      * destruct (slowCallThreshold opts <=? duration).
        { apply in_app_or in H as [H|H].
          - contradiction Herr. apply in_or_app. right. exact (Hin _ _ _ H).
          - destruct H as [H|[H|[]]]; discriminate H. }
        contradiction Herr. apply in_or_app. right. exact (Hin _ _ _ H).
    + intros [e' [-> ->]]. apply in_or_app. left. apply in_or_app. right.
      right. right. left. reflexivity.
  - split.
    + intros [v H]. destruct (slowCallThreshold opts <=? duration) eqn:Et; [apply Z.leb_le, Et|].
      exfalso. apply in_app_or in H as [H|H].
      * apply in_app_or in H as [H|H].
        { contradiction Hslow. apply in_or_app. left. exact (Hin _ _ _ H). }
        destruct H as [H|[H|H]]; try discriminate H.
        destruct e; [destruct H as [H|[]]; discriminate H|contradiction H].
      * contradiction Hslow. apply in_or_app. right. exact (Hin _ _ _ H).
    + intro H. apply Z.leb_le in H. rewrite H. eexists.
      apply in_or_app. right. apply in_or_app. right. left. reflexivity.
Qed.

Lemma logCallCompletion_fields_witness :
  exists fields,
    logCallCompletion [("grpc_service"%string, FStr "svc")] [] 1500000000
      (Some (ErrStatus Internal "boom"))
      (mkLoggingOptions false ["/svc/Method"%string] false 1000000000) "/svc/Method"
      = [LogInfo (MsgFinished 1500000000) fields]
    /\ firstn 1 fields = [("grpc_service"%string, FStr "svc")]
    /\ In ("grpc_code"%string, FCode Internal) fields
    /\ In ("duration_ms"%string, FInt 1500) fields
    /\ (forall v, In ("grpc_error"%string, v) fields
                  <-> exists e', Some (ErrStatus Internal "boom") = Some e' /\ v = FErr e')
    /\ ((exists v, In ("slow_request"%string, v) fields) <-> 1000000000 <= 1500000000).
Proof.
  apply (logCallCompletion_fields [("grpc_service"%string, FStr "svc")] [] 1500000000
           (Some (ErrStatus Internal "boom"))
           (mkLoggingOptions false ["/svc/Method"%string] false 1000000000) "/svc/Method").
  - right. discriminate.
  - simpl. intuition discriminate.
  - simpl. intuition discriminate.
Defined.

End LoggingExtraProofs.

(* ------------------------------------------------------------------ *)
(** ** Request ID: failure to set headers, and the IDs the handler sees *)

Module RequestIDExtraProofs.
Import RequestID.

(** X15: when the response header cannot be set (no transport stream in
    the context, or headers already sent), the interceptor returns an
    error and never reaches the handler; the stream is untouched and
    only the request ID, if it had to be minted, consumed an identifier
    (the internal ID is never minted). *)
Theorem RequestID_header_failure (xidNew : nat -> string) (ctx : Ctx) (s : St) :
  ss_present (stream s) = false \/ ss_headerSent (stream s) = true ->
  exists e,
    RequestIDServerUnaryInterceptor xidNew ctx s
    = (inl e, mkSt (if String.eqb (RequestIDProofs.inboundRequestID ctx) EmptyString
                    then S (minted s) else minted s) (stream s)).
Proof.
  destruct s as [n0 ss0]. simpl. intro H. unfold RequestIDServerUnaryInterceptor.
  fold (RequestIDProofs.inboundRequestID ctx).
  destruct (String.eqb (RequestIDProofs.inboundRequestID ctx) EmptyString);
    unfold mint; simpl; unfold SetHeader;
    destruct (ss_present ss0); destruct (ss_headerSent ss0); simpl;
    try (eexists; reflexivity); destruct H; discriminate.
Qed.

Lemma RequestID_header_failure_witness :
  ss_present (stream (mkSt 0 (mkStream true true []))) = false
    \/ ss_headerSent (stream (mkSt 0 (mkStream true true []))) = true
  /\ exists e,
       RequestIDServerUnaryInterceptor RequestIDProofs.xidGen (RequestIDProofs.ctxWith "abc")
         (mkSt 0 (mkStream true true []))
       = (inl e, mkSt (if String.eqb (RequestIDProofs.inboundRequestID (RequestIDProofs.ctxWith "abc"))
                         EmptyString then 1%nat else 0%nat) (mkStream true true [])).
Proof.
  right. split; [reflexivity|].
  exact (RequestID_header_failure RequestIDProofs.xidGen (RequestIDProofs.ctxWith "abc")
           (mkSt 0 (mkStream true true [])) (or_intror eq_refl)).
Defined.

(** X16: whenever the interceptor reaches the handler, the stream was
    present with headers unsent, one or two identifiers were minted
    (two exactly when the request ID was not adopted), the headers grew
    by exactly the two ID pairs, and, for an identifier generator that
    never yields [""], both [GetRequestIDFromContext] and
    [GetInternalRequestIDFromContext] are non-empty in the handler's
    context. *)
Theorem RequestID_success_ids (xidNew : nat -> string) (ctx ctx' : Ctx) (s s' : St) :
  (forall n, xidNew n <> EmptyString) ->
  RequestIDServerUnaryInterceptor xidNew ctx s = (inr ctx', s') ->
  ss_present (stream s) = true /\ ss_headerSent (stream s) = false
  /\ minted s' = (if String.eqb (RequestIDProofs.inboundRequestID ctx) EmptyString
                  then S (S (minted s)) else S (minted s))
  /\ List.length (ss_header (stream s')) = (List.length (ss_header (stream s)) + 2)%nat
  /\ GetRequestIDFromContext ctx' <> EmptyString
  /\ GetInternalRequestIDFromContext ctx' <> EmptyString.
Proof.
  intros Hx H. unfold RequestIDServerUnaryInterceptor in H.
  fold (RequestIDProofs.inboundRequestID ctx) in H.
  destruct (String.eqb (RequestIDProofs.inboundRequestID ctx) EmptyString) eqn:E;
    unfold mint in H; simpl in H; unfold SetHeader in H;
    destruct (ss_present (stream s)) eqn:P; simpl in H; try discriminate H;
    destruct (ss_headerSent (stream s)) eqn:Q; simpl in H; try discriminate H;
    injection H as <- <-; simpl;
    (split; [reflexivity|]); (split; [reflexivity|]); (split; [reflexivity|]);
    (split; [rewrite !length_app; simpl; lia|]);
    unfold GetRequestIDFromContext, GetInternalRequestIDFromContext, getStringFromContext,
      lookupValue; simpl; (split; [|apply Hx]).
  - apply Hx.
  - intro C. rewrite C in E. discriminate E.
Qed.

Lemma RequestID_success_ids_witness :
  (forall n, RequestIDProofs.xidGen n <> EmptyString)
  /\ GetInternalRequestIDFromContext
       (withValue (withValue (RequestIDProofs.ctxWith "abc") CtxRequestID "abc")
          CtxInternalRequestID "id0") <> EmptyString.
Proof.
  assert (Hx : forall n, RequestIDProofs.xidGen n <> EmptyString)
    by (intros [|n]; discriminate).
  split; [exact Hx|].
  exact (proj2 (proj2 (proj2 (proj2 (proj2
    (RequestID_success_ids RequestIDProofs.xidGen (RequestIDProofs.ctxWith "abc")
       (withValue (withValue (RequestIDProofs.ctxWith "abc") CtxRequestID "abc")
          CtxInternalRequestID "id0")
       RequestIDProofs.stOpen
       (mkSt 1 (mkStream true false [(headerRequestIDKey, "abc"%string);
                                     (headerRequestInternalIDKey, "id0"%string)]))
       Hx eq_refl)))))).
Defined.

End RequestIDExtraProofs.

(* ------------------------------------------------------------------ *)
(** ** Server construction: the options handed to grpc.NewServer *)

Module ServerExtraProofs.
Import Server.

Definition applyServerOptions (options : list (serverOptions -> serverOptions)) : serverOptions :=
  fold_left (fun o f => f o) options emptyServerOptions.

Definition optIf (b : bool) (x : ServerOption) : list ServerOption := if b then [x] else [].

Lemma in_optIf (b : bool) (x y : ServerOption) : In y (optIf b x) <-> b = true /\ x = y.
Proof. destruct b; simpl; intuition congruence. Qed.

Lemma snoc_if (b : bool) (l : list ServerOption) (x : ServerOption) :
  (if b then l ++ [x] else l) = l ++ optIf b x.
Proof. destruct b; simpl; [reflexivity|rewrite app_nil_r; reflexivity]. Qed.

Lemma New_normal (cfg : Config) (loadTLS : option err) (options : list (serverOptions -> serverOptions)) :
  (tlsEnabled cfg = false \/ loadTLS = None) ->
  let opts := applyServerOptions options in
  New cfg loadTLS options
  = inr ((if tlsEnabled cfg then [Creds] else []) ++ [KeepaliveParams; KeepaliveEnforcementPolicy]
         ++ optIf (0 <? limitMaxConcurrentStreams cfg) (MaxConcurrentStreams (limitMaxConcurrentStreams cfg))
         ++ optIf (0 <? limitMaxRecvMessageSize cfg) (MaxRecvMsgSize (intOfUint64 (limitMaxRecvMessageSize cfg)))
         ++ optIf (0 <? limitMaxSendMessageSize cfg) (MaxSendMsgSize (intOfUint64 (limitMaxSendMessageSize cfg)))
         ++ [ChainUnaryInterceptor (canonicalUnary ++ unaryInterceptors opts)]
         ++ optIf (0 <? Z.of_nat (List.length (streamInterceptors opts)))
                  (ChainStreamInterceptor (canonicalStream ++ streamInterceptors opts))).
Proof.
  intro H. cbv zeta. unfold New. fold (applyServerOptions options).
  replace (if tlsEnabled cfg then loadTLS else None) with (@None err)
    by (destruct H as [H|H]; rewrite H; [reflexivity|destruct (tlsEnabled cfg); reflexivity]).
  rewrite !snoc_if.
  replace (0 <? Z.of_nat (List.length (canonicalUnary ++ unaryInterceptors (applyServerOptions options))))
    with true by (symmetry; apply Z.ltb_lt; rewrite length_app; simpl; lia).
  rewrite <- !app_assoc. reflexivity.
Qed.

Lemma intOfUint64_small (x : Z) : 0 <= x < 2 ^ 63 -> intOfUint64 x = x.
Proof.
  intro H. unfold intOfUint64. rewrite Z.mod_small by lia.
  replace (x <? 2 ^ 63) with true by (symmetry; apply Z.ltb_lt; lia). reflexivity.
Qed.

Lemma intOfUint64_large (x : Z) : 2 ^ 63 <= x < 2 ^ 64 -> intOfUint64 x = x - 2 ^ 64 /\ x - 2 ^ 64 < 0.
Proof.
  intro H. unfold intOfUint64. rewrite Z.mod_small by lia.
  replace (x <? 2 ^ 63) with false by (symmetry; apply Z.ltb_ge; lia). split; [reflexivity|lia].
Qed.

Ltac in_cases H :=
  repeat match type of H with
  | In _ (_ ++ _) => apply in_app_or in H
  | _ \/ _ => destruct H as [H|H]
  | In _ (optIf _ _) => apply in_optIf in H; destruct H as [? H]
  | In _ (if ?b then _ else _) => destruct b
  | In _ (_ :: _) => destruct H as [H|H]
  | In _ [] => destruct H
  end.

(** X17: [New] fails exactly when TLS is enabled and loading the key
    pair fails, with the wrapped error; otherwise it succeeds, and the
    options given to [grpc.NewServer] contain TLS credentials exactly
    when TLS is enabled, the keepalive settings always, the stream
    limit exactly when it is positive (with that value), each message
    size limit exactly when it is positive, with its conversion
    [int(...)] (the value itself below 2^63, a negative size for a
    [uint64] of 2^63 or more), the unary chain always (canonical
    interceptors, then the user's), and a stream chain exactly when the
    user supplied stream interceptors. *)
Theorem New_outcome (cfg : Config) (loadTLS : option err) (options : list (serverOptions -> serverOptions)) :
  let opts := applyServerOptions options in
  (forall e, tlsEnabled cfg = true -> loadTLS = Some e ->
     New cfg loadTLS options = inl (ErrWrap "load TLS certificates" e))
  /\ ((tlsEnabled cfg = false \/ loadTLS = None) ->
      exists sopts, New cfg loadTLS options = inr sopts
        /\ (In Creds sopts <-> tlsEnabled cfg = true)
        /\ In KeepaliveParams sopts /\ In KeepaliveEnforcementPolicy sopts
        /\ (forall n, In (MaxConcurrentStreams n) sopts <-> 0 < limitMaxConcurrentStreams cfg /\ n = limitMaxConcurrentStreams cfg)
        /\ (forall n, In (MaxRecvMsgSize n) sopts
                      <-> 0 < limitMaxRecvMessageSize cfg /\ n = intOfUint64 (limitMaxRecvMessageSize cfg))
        /\ (forall n, In (MaxSendMsgSize n) sopts
                      <-> 0 < limitMaxSendMessageSize cfg /\ n = intOfUint64 (limitMaxSendMessageSize cfg))
        /\ (0 < limitMaxRecvMessageSize cfg < 2 ^ 63 -> In (MaxRecvMsgSize (limitMaxRecvMessageSize cfg)) sopts)
        /\ (0 < limitMaxSendMessageSize cfg < 2 ^ 63 -> In (MaxSendMsgSize (limitMaxSendMessageSize cfg)) sopts)
        /\ (2 ^ 63 <= limitMaxRecvMessageSize cfg < 2 ^ 64 -> exists n, In (MaxRecvMsgSize n) sopts /\ n < 0)
        /\ (2 ^ 63 <= limitMaxSendMessageSize cfg < 2 ^ 64 -> exists n, In (MaxSendMsgSize n) sopts /\ n < 0)
        /\ (forall l, In (ChainUnaryInterceptor l) sopts <-> l = canonicalUnary ++ unaryInterceptors opts)
        /\ (forall l, In (ChainStreamInterceptor l) sopts
                      <-> streamInterceptors opts <> [] /\ l = canonicalStream ++ streamInterceptors opts)).
Proof.
  cbv zeta. split.
  - intros e Ht Hl. unfold New. rewrite Ht, Hl. reflexivity.
  - intro H. rewrite (New_normal cfg loadTLS options H).
    match goal with |- exists x, inr ?L = inr x /\ _ => exists L; split; [reflexivity|]; set (sopts := L) end.
    set (u := unaryInterceptors (applyServerOptions options)) in sopts |- *.
    set (st := streamInterceptors (applyServerOptions options)) in sopts |- *.
    assert (HR : forall n, In (MaxRecvMsgSize n) sopts
                 <-> 0 < limitMaxRecvMessageSize cfg /\ n = intOfUint64 (limitMaxRecvMessageSize cfg)).
    { intro n. unfold sopts. split.
      - intro Hi. in_cases Hi; try congruence. apply Z.ltb_lt in H0. injection Hi as <-. lia.
      - intros [Hp ->]. apply Z.ltb_lt in Hp. rewrite !in_app_iff, !in_optIf. intuition auto. }
    assert (HS : forall n, In (MaxSendMsgSize n) sopts
                 <-> 0 < limitMaxSendMessageSize cfg /\ n = intOfUint64 (limitMaxSendMessageSize cfg)).
    { intro n. unfold sopts. split.
      - intro Hi. in_cases Hi; try congruence. apply Z.ltb_lt in H0. injection Hi as <-. lia.
      - intros [Hp ->]. apply Z.ltb_lt in Hp. rewrite !in_app_iff, !in_optIf. intuition auto. }
    split; [|split; [|split; [|split; [|split; [|split; [|split; [|split; [|split; [|split; [|split]]]]]]]]]].
    + unfold sopts. split.
      * intro Hi. in_cases Hi; congruence.
      * intro Ht. rewrite Ht. left. reflexivity.
    + unfold sopts. apply in_or_app. right. left. reflexivity.
    + unfold sopts. apply in_or_app. right. right. left. reflexivity.
    + intro n. unfold sopts. split.
      * intro Hi. in_cases Hi; try congruence. apply Z.ltb_lt in H0. injection Hi as <-. lia.
      * intros [Hp ->]. apply Z.ltb_lt in Hp. rewrite !in_app_iff, !in_optIf. intuition auto.
    + exact HR.
    + exact HS.
    + intro Hl. apply HR. split; [lia|]. symmetry. apply intOfUint64_small. lia.
    + intro Hl. apply HS. split; [lia|]. symmetry. apply intOfUint64_small. lia.
    + intro Hl. destruct (intOfUint64_large _ Hl) as [Heq Hneg].
      exists (limitMaxRecvMessageSize cfg - 2 ^ 64). split; [|exact Hneg].
      apply HR. split; [lia|]. symmetry. exact Heq.
    + intro Hl. destruct (intOfUint64_large _ Hl) as [Heq Hneg].
      exists (limitMaxSendMessageSize cfg - 2 ^ 64). split; [|exact Hneg].
      apply HS. split; [lia|]. symmetry. exact Heq.
    + intro l. unfold sopts. split.
      * intro Hi. in_cases Hi; congruence.
      * intros ->. rewrite !in_app_iff. simpl. intuition auto.
    + intro l. unfold sopts. split.
      * intro Hi. in_cases Hi; try congruence. injection Hi as <-. split; [|reflexivity].
        intro Hst. rewrite Hst in H0. discriminate H0.
      * intros [Hne ->].
        assert (Hb : (0 <? Z.of_nat (List.length st)) = true).
        { destruct st as [|i rest]; [contradiction Hne; reflexivity|]. apply Z.ltb_lt. simpl. lia. }
        rewrite !in_app_iff, !in_optIf. intuition auto.
Qed.

(** A configuration with a receive limit of 2^63 bytes and a send
    limit of 4 MiB. *)
Definition cfgHugeRecv : Config := mkConfig false 100 (2 ^ 63) 4194304.

Lemma New_outcome_witness :
  exists sopts, New cfgHugeRecv None [WithStreamInterceptors [UserInterceptor 7]] = inr sopts
    /\ In (ChainStreamInterceptor (canonicalStream ++ [UserInterceptor 7])) sopts
    /\ In (MaxSendMsgSize 4194304) sopts
    /\ (exists n, In (MaxRecvMsgSize n) sopts /\ n < 0).
Proof.
  destruct (proj2 (New_outcome cfgHugeRecv None [WithStreamInterceptors [UserInterceptor 7]])
              (or_introl eq_refl))
    as [sopts [HN [_ [_ [_ [_ [_ [_ [_ [HSs [HRl [_ [_ Hs]]]]]]]]]]]]].
  exists sopts. split; [exact HN|]. split; [apply Hs; split; [discriminate|reflexivity]|].
  split; [apply HSs; unfold cfgHugeRecv; simpl; lia|].
  apply HRl. unfold cfgHugeRecv; simpl; lia.
Defined.

(** One option of [New]: [WithUnaryInterceptors] ([true]) or
    [WithStreamInterceptors] ([false]) with its interceptors. *)
Definition toOption (o : bool * list interceptor) : serverOptions -> serverOptions :=
  if fst o then WithUnaryInterceptors (snd o) else WithStreamInterceptors (snd o).

(** X18: interceptor options accumulate: applied in order, the unary
    and the stream lists are the concatenations, in call order, of the
    lists given to [WithUnaryInterceptors] and [WithStreamInterceptors];
    a later option never drops an earlier one. *)
Theorem serverOptions_accumulate (os : list (bool * list interceptor)) (o0 : serverOptions) :
  fold_left (fun o f => f o) (map toOption os) o0
  = mkServerOptions (unaryInterceptors o0 ++ List.concat (map snd (filter fst os)))
                    (streamInterceptors o0 ++ List.concat (map snd (filter (fun o => negb (fst o)) os))).
Proof.
  revert o0. induction os as [|[b l] os IH]; intro o0; simpl.
  - destruct o0. simpl. rewrite !app_nil_r. reflexivity.
  - rewrite IH. unfold toOption. destruct b; simpl; rewrite <- app_assoc; reflexivity.
Qed.

End ServerExtraProofs.
